(** * ArduinoHuffman: a shallow embedding of huffman_compression.cpp

    The development follows the source file function by function:
    frequency table, tree construction over [std::priority_queue],
    dictionary generation, the file writer with its bit packer, the
    dictionary reader and the bit-by-bit decoder.

    Conventions.
    - A [std::string], a file and a stream buffer are lists of raw bytes,
      each a [Z] in [0, 256).  The value of a [char] object holding such a
      byte depends on the signedness of [char], which the language leaves
      to the implementation: see [CharType].
    - [unsigned int] arithmetic wraps modulo 2^32; overflow of [int]
      addition is undefined behaviour and modelled as a fault.
    - [std::shared_ptr<Node>] is the inductive type [Node], whose
      constructor [Null] is the null pointer.
    - Undefined behaviour, uncaught exceptions and null dereferences are
      results of type [outcome], never silently skipped. *)

From Stdlib Require Import ZifyNat.
From stdpp Require Import base numbers list option sorting.

Local Open Scope Z_scope.

(** ** Results of running a piece of the program *)

Inductive fault : Type :=
  | EmptyQueueTop        (* pq.top() or pq.pop() on an empty queue *)
  | SignedOverflow       (* int + int outside the range of int *)
  | NullDereference      (* -> through a null shared_ptr *)
  | IndeterminateValue   (* use of a local that a failed read left unset *)
  | LengthError          (* std::string::resize beyond max_size *)
  | NegativeCount        (* ostream::write with a negative count *)
  | FuelExhausted.       (* the loop bound of the model was too small *)

Inductive outcome (A : Type) : Type :=
  | Ok (a : A)
  | Fault (f : fault).

Arguments Ok {A} a.
Arguments Fault {A} f.

#[global] Instance outcome_ret : MRet outcome := λ A a, Ok a.
#[global] Instance outcome_bind : MBind outcome := λ A B k m,
  match m with
  | Ok a => k a
  | Fault f => Fault f
  end.

#[global] Instance fault_eq_dec : EqDecision fault.
Proof. solve_decision. Defined.

Definition is_ok {A} (m : outcome A) : bool :=
  match m with Ok _ => true | Fault _ => false end.

(** ** Machine integers and characters *)

Definition NUM_CHAR : nat := 256.

Definition INT_MIN : Z := - 2 ^ 31.
Definition INT_MAX : Z := 2 ^ 31 - 1.

(** Conversion to [unsigned char], to [unsigned int] and to [int]. *)
Definition to_uchar (z : Z) : Z := z mod 256.
Definition to_uint (z : Z) : Z := z mod 2 ^ 32.
Definition to_int (z : Z) : Z := (z + 2 ^ 31) mod 2 ^ 32 - 2 ^ 31.

(** [a + b] on two [int]s. *)
Definition int_add (a b : Z) : outcome Z :=
  if bool_decide (INT_MIN ≤ a + b ≤ INT_MAX) then Ok (a + b)
  else Fault SignedOverflow.

(** Whether plain [char] is a signed type is implementation-defined. *)
Class CharType := { char_signed : bool }.

(** The value of a [char] object that holds the raw byte [b]. *)
Definition char_value `{CharType} (b : Z) : Z :=
  if char_signed && bool_decide (128 ≤ b) then b - 256 else b.

(** The character literals of the source. *)
Definition chr_0 : Z := 48.     (* '0' *)
Definition chr_1 : Z := 49.     (* '1' *)
Definition chr_plus : Z := 43.  (* '+' *)

(** ** class Node *)

Inductive Node : Type :=
  | Null
  | MkNode (character : Z) (frequency : Z) (left right : Node).

Definition is_null (p : Node) : bool :=
  match p with Null => true | MkNode _ _ _ _ => false end.

Definition frequency_of (p : Node) : Z :=
  match p with Null => 0 | MkNode _ f _ _ => f end.

Definition character_of (p : Node) : Z :=
  match p with Null => 0 | MkNode c _ _ _ => c end.

(** [Node::Compare]: [l->frequency > r->frequency]. *)
Definition Compare (l r : Node) : bool :=
  bool_decide (frequency_of l > frequency_of r).

(** [new Node(ch, freq)] with both children null. *)
Definition make_node (ch freq : Z) : Node :=
  MkNode (to_uchar ch) (to_int freq) Null Null.

(** ** std::priority_queue over a vector

    The standard fixes [push], [top] and [pop] in terms of the heap
    algorithms on the underlying vector, and fixes what a heap is; which
    heap the algorithms build among equal keys is left open.  The model
    keeps exactly that freedom. *)

(** [is_heap v]: for every index [0 < i < N] the comparison of the parent
    [v[(i-1)/2]] against [v[i]] is false. *)
Definition is_heap (v : list Node) : Prop :=
  ∀ (i : nat) p c, (0 < i)%nat →
    v !! ((i - 1) / 2)%nat = Some p → v !! i = Some c → Compare p c = false.

Class HeapAlgorithms := {
  (** [std::push_heap(first, last, comp)] *)
  push_heap : list Node → list Node;
  (** [std::pop_heap(first, last, comp)] *)
  pop_heap : list Node → list Node;
  push_heap_spec : ∀ v x, is_heap v →
    push_heap (v ++ [x]) ≡ₚ v ++ [x] ∧ is_heap (push_heap (v ++ [x]));
  pop_heap_spec : ∀ x v, is_heap (x :: v) →
    ∃ v', pop_heap (x :: v) = v' ++ [x] ∧ v' ≡ₚ v ∧ is_heap v';
}.

Section PriorityQueue.
Context `{HeapAlgorithms}.

(** [c.push_back(x); push_heap(c.begin(), c.end(), comp)] *)
Definition pq_push (x : Node) (c : list Node) : list Node :=
  push_heap (c ++ [x]).

(** [c.front()] *)
Definition pq_top (c : list Node) : outcome Node :=
  match c with
  | [] => Fault EmptyQueueTop
  | x :: _ => Ok x
  end.

(** [pop_heap(c.begin(), c.end(), comp); c.pop_back()] *)
Definition pq_pop (c : list Node) : outcome (list Node) :=
  match c with
  | [] => Fault EmptyQueueTop
  | _ :: _ => Ok (removelast (pop_heap c))
  end.

Definition pq_size (c : list Node) : nat := length c.
End PriorityQueue.

(** ** Frequency table *)

(** [frequency.fill(0)] *)
Definition init_frequency : list Z := replicate NUM_CHAR 0.

(** [for (unsigned char ch : text) frequency[ch]++;] *)
Definition fill_frequency (text : list Z) (frequency : list Z) : list Z :=
  foldl (λ fr ch,
           let i := Z.to_nat (to_uchar ch) in
           <[i := to_uint (fr !!! i + 1)]> fr)
        frequency text.

(** ** build_huffman_tree *)

Section Build.
Context `{HeapAlgorithms}.

(** The first loop: one leaf per non-zero slot, in index order. *)
Definition push_leaves (frequency : list Z) : list Node :=
  foldl (λ pq (i : nat),
           if bool_decide (frequency !!! i > 0)
           then pq_push (make_node (Z.of_nat i) (frequency !!! i)) pq
           else pq)
        [] (seq 0 NUM_CHAR).

(** One round of the [while] body. *)
Definition merge_step (pq : list Node) : outcome (list Node) :=
  l ← pq_top pq;
  pq1 ← pq_pop pq;
  r ← pq_top pq1;
  pq2 ← pq_pop pq1;
  sum ← int_add (frequency_of l) (frequency_of r);
  Ok (pq_push (MkNode chr_plus sum l r) pq2).

(** [while (pq.size() > 1) { ... }]; every round shrinks the queue by
    one, so [fuel = pq.size()] rounds always suffice. *)
Fixpoint merge_loop (fuel : nat) (pq : list Node) : outcome (list Node) :=
  if bool_decide (1 < pq_size pq)%nat then
    match fuel with
    | O => Fault FuelExhausted
    | S fuel' => pq' ← merge_step pq; merge_loop fuel' pq'
    end
  else Ok pq.

Definition build_huffman_tree (frequency : list Z) : outcome Node :=
  let pq := push_leaves frequency in
  pq' ← merge_loop (pq_size pq) pq;
  pq_top pq'.
End Build.

(** ** generate_dictionary, encode_text *)

(** [std::array<std::string, NUM_CHAR> dict;] *)
Definition empty_dict : list (list Z) := replicate NUM_CHAR [].

Fixpoint generate_dictionary (root : Node) (code : list Z)
    (dict : list (list Z)) : outcome (list (list Z)) :=
  match root with
  | Null => Fault NullDereference
  | MkNode ch _ l r =>
      if is_null l && is_null r then Ok (<[Z.to_nat ch := code]> dict)
      else
        dict1 ← (if is_null l then Ok dict
                 else generate_dictionary l (code ++ [chr_0]) dict);
        if is_null r then Ok dict1
        else generate_dictionary r (code ++ [chr_1]) dict1
  end.

(** [for (unsigned char ch : text) encoded += dict[ch];] *)
Definition encode_text (text : list Z) (dict : list (list Z)) : list Z :=
  foldl (λ encoded ch, encoded ++ dict !!! Z.to_nat (to_uchar ch)) [] text.

(** ** write_compressed_file *)

(** The body of the packing loop; the state is the bytes written so far,
    [buffer] and [bit_pos]. *)
Definition pack_step (st : list Z * Z * Z) (bit : Z) : list Z * Z * Z :=
  let '(out, buffer, bit_pos) := st in
  let buffer :=
    if bool_decide (bit = chr_1)
    then to_uchar (Z.lor buffer (Z.shiftl 1 (7 - bit_pos)))
    else buffer in
  let bit_pos := bit_pos + 1 in
  if bool_decide (bit_pos = 8) then (out ++ [buffer], 0, 0)
  else (out, buffer, bit_pos).

(** The packing loop and the flush of the last, partly filled byte. *)
Definition pack_bits (encoded_text : list Z) : list Z :=
  let '(out, buffer, bit_pos) := foldl pack_step ([], 0, 0) encoded_text in
  if bool_decide (bit_pos > 0) then out ++ [buffer] else out.

(** [std::count_if(dict.begin(), dict.end(), not empty)] *)
Definition count_codes (dict : list (list Z)) : nat :=
  length (filter (λ s : list Z, s ≠ []) dict).

Section Writer.
Context `{CharType}.

(** The three writes of one dictionary entry; [length] is a [char] and
    is the count handed to [outfile.write]. *)
Definition write_entry (i : nat) (code : list Z) : outcome (list Z) :=
  let character := to_uchar (Z.of_nat i) in
  let length_byte := to_uchar (Z.of_nat (length code)) in
  let count := char_value length_byte in
  if bool_decide (count < 0) then Fault NegativeCount
  else Ok ([character; length_byte] ++ take (Z.to_nat count) code).

(** The dictionary loop over [i = 0 .. NUM_CHAR - 1]. *)
Fixpoint write_entries (i : nat) (dict : list (list Z)) : outcome (list Z) :=
  match dict with
  | [] => Ok []
  | code :: dict' =>
      here ← (if bool_decide (code ≠ []) then write_entry i code else Ok []);
      rest ← write_entries (S i) dict';
      Ok (here ++ rest)
  end.

(** The bytes of the output file, given that it could be created. *)
Definition write_compressed_file (dict : list (list Z))
    (encoded_text : list Z) : outcome (list Z) :=
  let dict_size := to_uchar (Z.of_nat (count_codes dict)) in
  entries ← write_entries 0 dict;
  Ok ([dict_size] ++ entries ++ pack_bits encoded_text).
End Writer.

(** ** compress_file *)

Section Compress.
Context `{HeapAlgorithms} `{CharType}.

Definition compress_file (dataset : list Z) : outcome (list Z) :=
  let frequency := fill_frequency dataset init_frequency in
  huffman_tree ← build_huffman_tree frequency;
  dict ← generate_dictionary huffman_tree [] empty_dict;
  let encoded_text := encode_text dataset dict in
  write_compressed_file dict encoded_text.
End Compress.

(** ** std::ifstream

    A stream over the bytes of a file: the get position and the fail
    state.  Once the fail state is set every later read, seek and tell
    fails.  *)

Record ifstream : Type := Ifstream {
  buf : list Z;
  gpos : nat;
  failbit : bool;
}.

Definition open_file (file : list Z) : ifstream :=
  {| buf := file; gpos := 0; failbit := false |}.

(** [infile.read(p, n)]: the bytes stored at [p] and the stream thereafter.
    A short read stores what is left and sets the fail state. *)
Definition stream_read (n : nat) (s : ifstream) : list Z * ifstream :=
  if failbit s then ([], s)
  else
    let avail := drop (gpos s) (buf s) in
    if bool_decide (n ≤ length avail)%nat
    then (take n avail, {| buf := buf s; gpos := gpos s + n; failbit := false |})
    else (avail, {| buf := buf s; gpos := length (buf s); failbit := true |}).

(** [char x; infile.read(&x, sizeof(char))]: [None] is the indeterminate
    value a failed read leaves in the uninitialised local. *)
Definition read_char (s : ifstream) : option Z * ifstream :=
  let '(got, s') := stream_read 1 s in
  (head got, s').

(** [infile.seekg(0, std::ios::end)] *)
Definition seekg_end (s : ifstream) : ifstream :=
  if failbit s then s
  else {| buf := buf s; gpos := length (buf s); failbit := false |}.

(** [infile.tellg()] *)
Definition tellg (s : ifstream) : Z :=
  if failbit s then -1 else Z.of_nat (gpos s).

(** [infile.seekg(off, std::ios::cur)] *)
Definition seekg_cur (off : Z) (s : ifstream) : ifstream :=
  if failbit s then s
  else
    let p := Z.of_nat (gpos s) + off in
    if bool_decide (0 ≤ p ≤ Z.of_nat (length (buf s)))
    then {| buf := buf s; gpos := Z.to_nat p; failbit := false |}
    else {| buf := buf s; gpos := gpos s; failbit := true |}.

(** ** read_huffman_dictionary *)

(** The walk of one code from [current], creating the missing nodes, and
    the final store into [current->character]. *)
Fixpoint insert_code (code : list Z) (character : Z) (current : Node)
    {struct code} : outcome Node :=
  match current with
  | Null => Fault NullDereference
  | MkNode ch f l r =>
      match code with
      | [] => Ok (MkNode character f l r)
      | bit :: code' =>
          if bool_decide (bit = chr_0) then
            l' ← insert_code code' character
                   (if is_null l then make_node chr_plus 0 else l);
            Ok (MkNode ch f l' r)
          else
            r' ← insert_code code' character
                   (if is_null r then make_node chr_plus 0 else r);
            Ok (MkNode ch f l r')
      end
  end.

Section Reader.
Context `{CharType}.

(** One iteration of the entry loop. *)
Definition read_entry (infile : ifstream) (root : Node)
    : outcome (Node * ifstream) :=
  let '(character, infile) := read_char infile in
  let '(code_length, infile) := read_char infile in
  match character, code_length with
  | Some character, Some code_length =>
      let len := char_value code_length in
      (* code.resize(code_length) *)
      if bool_decide (len < 0) then Fault LengthError
      else
        let '(got, infile) := stream_read (Z.to_nat len) infile in
        let code := got ++ replicate (Z.to_nat len - length got) 0 in
        root' ← insert_code code (to_uchar (char_value character)) root;
        Ok (root', infile)
  | _, _ => Fault IndeterminateValue
  end.

(** [for (int i = 0; i < dict_size; ++i)] with [n] rounds to go. *)
Fixpoint read_entries (n : nat) (infile : ifstream) (root : Node)
    : outcome (Node * ifstream) :=
  match n with
  | O => Ok (root, infile)
  | S n' =>
      '(root', infile') ← read_entry infile root;
      read_entries n' infile' root'
  end.

Definition read_huffman_dictionary (infile : ifstream) (root : Node)
    : outcome (Node * ifstream) :=
  let '(dict_size, infile) := read_char infile in
  match dict_size with
  | None => Fault IndeterminateValue
  | Some dict_size =>
      read_entries (Z.to_nat (char_value dict_size)) infile root
  end.
End Reader.

(** ** decode_data *)

(** The [for (int i = 7; i >= 0; --i)] loop with [n = i + 1]; the state is
    [current], [decoded_text] and [bit_count].  Bit [i] of the promoted
    [char] is bit [i] of its raw byte for [i < 8]. *)
Fixpoint decode_bits (n : nat) (buffer : Z) (root current : Node)
    (decoded_text : list Z) (bit_count encoded_length : Z)
    : outcome (Node * list Z * Z) :=
  match n with
  | O => Ok (current, decoded_text, bit_count)
  | S i =>
      let bit := bool_decide (Z.land buffer (Z.shiftl 1 (Z.of_nat i)) ≠ 0) in
      match current with
      | Null => Fault NullDereference
      | MkNode _ _ l r =>
          match (if bit then r else l) with
          | Null => Fault NullDereference
          | MkNode ch f l' r' =>
              let '(decoded_text, current) :=
                if is_null l' && is_null r'
                then (decoded_text ++ [ch], root)
                else (decoded_text, MkNode ch f l' r') in
              let bit_count := bit_count + 1 in
              if bool_decide (bit_count >= encoded_length)
              then Ok (current, decoded_text, bit_count)
              else decode_bits i buffer root current decoded_text
                     bit_count encoded_length
          end
      end
  end.

(** [while (infile.read(&buffer, sizeof(char)))] over the bytes from the
    get position to the end of the file. *)
Fixpoint decode_bytes (bytes : list Z) (root current : Node)
    (decoded_text : list Z) (bit_count encoded_length : Z)
    : outcome (list Z) :=
  match bytes with
  | [] => Ok decoded_text
  | buffer :: bytes' =>
      '(current, decoded_text, bit_count) ←
        decode_bits 8 buffer root current decoded_text bit_count encoded_length;
      decode_bytes bytes' root current decoded_text bit_count encoded_length
  end.

Definition decode_data (infile : ifstream) (root : Node)
    (encoded_length : Z) : outcome (list Z) :=
  if failbit infile then Ok []
  else decode_bytes (drop (gpos infile) (buf infile)) root root [] 0
         encoded_length.

(** ** decompress_file *)

Section Decompress.
Context `{CharType}.

(** The stream handed to [decode_data] and its [encoded_length]. *)
Definition locate_payload (infile : ifstream) : ifstream * Z :=
  let infile := seekg_end infile in
  let file_size := tellg infile in
  let infile := seekg_cur (-1) infile in
  (infile, to_int file_size).

(** The text written to the output file, given that the input file could
    be opened and the output file created. *)
Definition decompress_file (file : list Z) : outcome (list Z) :=
  let infile := open_file file in
  let root := make_node chr_plus 0 in
  '(root, infile) ← read_huffman_dictionary infile root;
  let '(infile, encoded_length) := locate_payload infile in
  decode_data infile root encoded_length.
End Decompress.

(** ** A reference implementation of the heap algorithms

    The vector is kept sorted by frequency; a sorted vector is a heap.
    Equal frequencies stay in the order in which they sit in the vector. *)

Definition frequency_le (a b : Node) : Prop := frequency_of a ≤ frequency_of b.

#[global] Instance frequency_le_dec a b : Decision (frequency_le a b) :=
  Z_le_dec (frequency_of a) (frequency_of b).

Fixpoint sorted_insert (x : Node) (v : list Node) : list Node :=
  match v with
  | [] => [x]
  | y :: v' =>
      if decide (frequency_le y x) then y :: sorted_insert x v'
      else x :: y :: v'
  end.

Definition sort_by_frequency (v : list Node) : list Node :=
  foldr sorted_insert [] v.

Definition sorting_push_heap (v : list Node) : list Node :=
  sort_by_frequency v.

Definition sorting_pop_heap (v : list Node) : list Node :=
  match v with
  | [] => []
  | x :: v' => sort_by_frequency v' ++ [x]
  end.

(** ** Vocabulary of the statements *)

(** The nodes created by the first loop of [build_huffman_tree], in the
    order in which they are pushed. *)
Definition leaf_list (frequency : list Z) : list Node :=
  (λ i : nat, make_node (Z.of_nat i) (frequency !!! i))
    <$> filter (λ i : nat, frequency !!! i > 0) (seq 0 NUM_CHAR).

Definition sumz (l : list Z) : Z := foldr Z.add 0 l.

Definition left_of (p : Node) : Node :=
  match p with Null => Null | MkNode _ _ l _ => l end.

Definition right_of (p : Node) : Node :=
  match p with Null => Null | MkNode _ _ _ r => r end.

(** The number of non-null children of a node. *)
Definition child_count (p : Node) : nat :=
  match p with
  | Null => 0
  | MkNode _ _ l r =>
      (if is_null l then 0 else 1) + (if is_null r then 0 else 1)
  end.

(** All nodes of the tree below a pointer, the root first. *)
Fixpoint nodes (p : Node) : list Node :=
  match p with
  | Null => []
  | MkNode _ _ l r => p :: nodes l ++ nodes r
  end.

(** A node is a leaf, or has two children and carries their sum. *)
Definition node_ok (p : Node) : Prop :=
  (child_count p = 0 ∨ child_count p = 2)%nat ∧
  (child_count p = 2%nat →
   frequency_of p = frequency_of (left_of p) + frequency_of (right_of p)).

Fixpoint full_tree (p : Node) : Prop :=
  match p with
  | Null => False
  | MkNode _ f l r =>
      (l = Null ∧ r = Null) ∨
      (f = frequency_of l + frequency_of r ∧ full_tree l ∧ full_tree r)
  end.

(** The node reached from [p] along a code: ['0'] goes left, any other
    character goes right. *)
Fixpoint walk (p : Node) (code : list Z) {struct code} : Node :=
  match code with
  | [] => p
  | bit :: code' =>
      match p with
      | Null => Null
      | MkNode _ _ l r =>
          if bool_decide (bit = chr_0) then walk l code' else walk r code'
      end
  end.

Definition is_leaf (p : Node) : Prop :=
  ∃ ch f, p = MkNode ch f Null Null.

(** No non-empty code of one symbol is a prefix of the code of another. *)
Definition prefix_free (dict : list (list Z)) : Prop :=
  ∀ i j : nat, i ≠ j → dict !!! i ≠ [] → ¬ (dict !!! i) `prefix_of` (dict !!! j).

(** Whether the character at a position of the encoded text is ['1']. *)
Definition is_one (o : option Z) : bool := bool_decide (o = Some chr_1).

(** The state of the packing loop after the bits [bits]: the full bytes
    written, the byte being filled and the position in it. *)
Definition pack_inv (bits : list Z) (st : list Z * Z * Z) : Prop :=
  let n := length bits in
  ∃ out buffer, st = (out, buffer, Z.of_nat (n mod 8)) ∧
    length out = (n / 8)%nat ∧ 0 ≤ buffer < 256 ∧
    Forall (λ b, 0 ≤ b < 256) out ∧
    (∀ k : nat, (k < 8 * (n / 8))%nat →
       Z.testbit (out !!! (k / 8)%nat) (7 - Z.of_nat (k mod 8))
       = is_one (bits !! k)) ∧
    (∀ j : nat, (j < 8)%nat →
       Z.testbit buffer (7 - Z.of_nat j)
       = is_one (bits !! (8 * (n / 8) + j)%nat)).

(** A stream in good state at a position of a file. *)
Definition at_pos (file : list Z) (p : nat) : ifstream :=
  {| buf := file; gpos := p; failbit := false |}.

(** The largest value of a [char]. *)
Definition char_max `{CharType} : Z := if char_signed then 127 else 255.

(** A dictionary entry as it lies in the file: the symbol byte, the length
    byte and the characters that follow. *)
Definition wire_bytes (e : Z * Z * list Z) : list Z :=
  let '(sym, len, chars) := e in [sym; len] ++ chars.

Definition wire_ok `{CharType} (e : Z * Z * list Z) : Prop :=
  let '(sym, len, chars) := e in
  0 ≤ sym < 256 ∧ 0 ≤ len < 256 ∧ 0 ≤ char_value len ∧
  length chars = Z.to_nat (char_value len).

(** The insertions that the reader performs for a list of entries. *)
Fixpoint insert_entries (es : list (Z * Z * list Z)) (root : Node)
    : outcome Node :=
  match es with
  | [] => Ok root
  | (sym, _, chars) :: es' =>
      root' ← insert_code chars sym root; insert_entries es' root'
  end.

(** The entries that the writer emits for the slots [i, i+1, ...] of a
    dictionary. *)
Fixpoint dict_entries `{CharType} (i : nat) (dict : list (list Z))
    : list (Z * Z * list Z) :=
  match dict with
  | [] => []
  | code :: dict' =>
      (if bool_decide (code ≠ [])
       then [(to_uchar (Z.of_nat i), to_uchar (Z.of_nat (length code)),
              take (Z.to_nat (char_value (to_uchar (Z.of_nat (length code))))) code)]
       else [])
      ++ dict_entries (S i) dict'
  end.

(** What [decode_data] returns when the one byte [last] is left to read. *)
Definition decode_last_byte (last : Z) (root : Node) (encoded_length : Z)
    : outcome (list Z) :=
  '(_, decoded_text, _) ←
    decode_bits 8 last root root [] 0 encoded_length;
  Ok decoded_text.

(** The entries of a dictionary whose lengths fit a [char]: the index of
    the slot, the length of the code and the code itself. *)
Fixpoint code_entries (i : nat) (dict : list (list Z))
    : list (Z * Z * list Z) :=
  match dict with
  | [] => []
  | code :: dict' =>
      (if bool_decide (code ≠ [])
       then [(Z.of_nat i, Z.of_nat (length code), code)] else [])
      ++ code_entries (S i) dict'
  end.

(** A header in which the code "0" of 'a' is a prefix of the code "01" of
    'b', followed by the payload byte 01010101. *)
Definition conflict_file : list Z := [2; 97; 1; 48; 98; 2; 48; 49; 85].

(** The bytes 0, 1, ..., 127, each once. *)
Definition text_128 : list Z := Z.of_nat <$> seq 0 128.

(** How often the byte with index [i] occurs in a text. *)
Definition occurrences (i : nat) (text : list Z) : nat :=
  length (filter (λ ch, Z.to_nat (to_uchar ch) = i) text).

(** The characters of the leaves below a pointer, from left to right. *)
Fixpoint leaves (p : Node) : list Z :=
  match p with
  | Null => []
  | MkNode ch _ l r =>
      if is_null l && is_null r then [ch] else leaves l ++ leaves r
  end.

(** The indices of the non-zero slots of a table, in increasing order. *)
Definition used_slots (frequency : list Z) : list nat :=
  filter (λ i : nat, frequency !!! i > 0) (seq 0 NUM_CHAR).

(** The assignments that [generate_dictionary] makes, in order: the
    character of each leaf with the code accumulated on the way to it. *)
Fixpoint code_list (p : Node) (code : list Z) : list (Z * list Z) :=
  match p with
  | Null => []
  | MkNode ch _ l r =>
      if is_null l && is_null r then [(ch, code)]
      else code_list l (code ++ [chr_0]) ++ code_list r (code ++ [chr_1])
  end.

Definition assign (dict : list (list Z)) (a : Z * list Z) : list (list Z) :=
  <[Z.to_nat a.1 := a.2]> dict.




(** A character of a code is ['0'] or ['1']. *)
Definition is_bit (b : Z) : Prop := b = chr_0 ∨ b = chr_1.


(** No entry's code is a prefix of the code of a different entry. *)
Definition entries_prefix_free (es : list (Z * Z * list Z)) : Prop :=
  ∀ e e', e ∈ es → e' ∈ es → e ≠ e' → ¬ e.2 `prefix_of` e'.2.

(** What the reader has built after the entries [es]: every node other
    than the root lies on the code of an entry, and the code of every
    entry ends in a leaf that holds the symbol of the entry. *)
Definition rebuilt (tree : Node) (es : list (Z * Z * list Z)) : Prop :=
  (∀ q, Forall is_bit q → walk tree q ≠ Null →
     q = [] ∨ ∃ e, e ∈ es ∧ q `prefix_of` e.2) ∧
  (∀ e, e ∈ es → ∃ f, walk tree e.2 = MkNode e.1.1 f Null Null).

(** * Properties *)

(** ** The outcome monad *)

Lemma bind_Ok {A B} (m : outcome A) (k : A → outcome B) b :
  m ≫= k = Ok b ↔ ∃ a, m = Ok a ∧ k a = Ok b.
Proof.
  destruct m as [a|f]; simpl.
  - split; [eauto | intros (a' & [= <-] & ?); done].
  - split; [done | intros (a' & [=] & _)].
Qed.

Lemma bind_Ok_l {A B} (a : A) (k : A → outcome B) : Ok a ≫= k = k a.
Proof. reflexivity. Qed.

Lemma bind_Fault_l {A B} f (k : A → outcome B) : Fault f ≫= k = Fault f.
Proof. reflexivity. Qed.

(** ** Sorted vectors are heaps *)

Lemma StronglySorted_lookup_lt {A} (R : relation A) (l : list A) i j a b :
  StronglySorted R l → (i < j)%nat → l !! i = Some a → l !! j = Some b → R a b.
Proof.
  intros Hs Hij Ha Hb.
  rewrite <- (take_drop j l) in Hs.
  eapply StronglySorted_app_1_elem_of; [exact Hs | |].
  - apply list_elem_of_lookup. exists i. by rewrite lookup_take_lt.
  - apply list_elem_of_lookup. exists 0%nat.
    rewrite lookup_drop. by rewrite Nat.add_0_r.
Qed.

Lemma sorted_is_heap v : StronglySorted frequency_le v → is_heap v.
Proof.
  intros Hs i p c Hi Hp Hc.
  assert (Hlt : ((i - 1) / 2 < i)%nat).
  { apply Nat.Div0.div_lt_upper_bound. lia. }
  pose proof (StronglySorted_lookup_lt _ _ _ _ _ _ Hs Hlt Hp Hc) as Hle.
  unfold Compare, frequency_le in *. apply bool_decide_eq_false. lia.
Qed.

Lemma sorted_insert_perm x v : sorted_insert x v ≡ₚ x :: v.
Proof.
  induction v as [|y v IH]; simpl; [done|].
  case_decide; [|done]. rewrite IH. apply Permutation_swap.
Qed.

Lemma sorted_insert_sorted x v :
  StronglySorted frequency_le v → StronglySorted frequency_le (sorted_insert x v).
Proof.
  induction 1 as [|y v Hs IH Hy]; simpl.
  - repeat constructor.
  - case_decide as Hyx.
    + constructor; [done|]. rewrite sorted_insert_perm. by constructor.
    + assert (frequency_le x y) by (unfold frequency_le in *; lia).
      constructor; [by constructor|]. constructor; [done|].
      eapply Forall_impl; [exact Hy|]. unfold frequency_le in *. intros; lia.
Qed.

Lemma sort_by_frequency_perm v : sort_by_frequency v ≡ₚ v.
Proof.
  induction v as [|x v IH]; simpl; [done|].
  by rewrite sorted_insert_perm, IH.
Qed.

Lemma sort_by_frequency_sorted v : StronglySorted frequency_le (sort_by_frequency v).
Proof.
  induction v as [|x v IH]; simpl; [constructor|].
  by apply sorted_insert_sorted.
Qed.

Program Definition sorting_heap : HeapAlgorithms := {|
  push_heap := sorting_push_heap;
  pop_heap := sorting_pop_heap;
|}.
Next Obligation.
  intros v x _. split.
  - apply sort_by_frequency_perm.
  - apply sorted_is_heap, sort_by_frequency_sorted.
Qed.
Next Obligation.
  intros x v _. exists (sort_by_frequency v). split; [done|]. split.
  - apply sort_by_frequency_perm.
  - apply sorted_is_heap, sort_by_frequency_sorted.
Qed.

Definition signed_char : CharType := {| char_signed := true |}.
Definition unsigned_char : CharType := {| char_signed := false |}.

(** ** Consequences of the heap laws *)

#[global] Arguments pq_push : simpl never.
#[global] Arguments pq_pop : simpl never.

Section HeapFacts.
Context `{HeapAlgorithms}.

Lemma is_heap_nil : is_heap [].
Proof. intros i p c _ Hp. by rewrite lookup_nil in Hp. Qed.

Lemma is_heap_singleton x : is_heap [x].
Proof.
  intros i p c Hi _ Hc. destruct i as [|i]; [lia|].
  by rewrite lookup_cons, lookup_nil in Hc.
Qed.

Lemma is_heap_pair x y : frequency_of x ≤ frequency_of y → is_heap [x; y].
Proof.
  intros Hle i p c Hi Hp Hc.
  destruct i as [|[|i]]; [lia | | by rewrite !lookup_cons, lookup_nil in Hc].
  simpl in Hp, Hc. injection Hp as <-. injection Hc as <-.
  apply bool_decide_eq_false. lia.
Qed.

(** The front of a heap and its second element are ordered. *)
Lemma is_heap_front x y v : is_heap (x :: y :: v) → Compare x y = false.
Proof. intros Hh. apply (Hh 1%nat x y); [lia | done | done]. Qed.

Lemma pq_top_cons x c : pq_top (x :: c) = Ok x.
Proof. reflexivity. Qed.

Lemma pq_push_perm x c : is_heap c → pq_push x c ≡ₚ x :: c.
Proof.
  intros Hc. unfold pq_push.
  destruct (push_heap_spec c x Hc) as [Hp _].
  etrans; [exact Hp|]. apply (Permutation_app_comm c [x]).
Qed.

Lemma pq_push_heap x c : is_heap c → is_heap (pq_push x c).
Proof. intros Hc. by destruct (push_heap_spec c x Hc). Qed.

Lemma pq_pop_spec x v :
  is_heap (x :: v) → ∃ v', pq_pop (x :: v) = Ok v' ∧ v' ≡ₚ v ∧ is_heap v'.
Proof.
  intros Hh. destruct (pop_heap_spec x v Hh) as (v' & Hv' & Hp & Hh').
  exists v'. split; [|done]. unfold pq_pop. f_equal.
  rewrite Hv'. apply removelast_last.
Qed.

Lemma pq_push_empty x : pq_push x [] = [x].
Proof.
  apply Permutation_singleton_r. rewrite pq_push_perm; [done|].
  apply is_heap_nil.
Qed.

(** Pushing a node of larger frequency behind a single node. *)
Lemma pq_push_second x y :
  frequency_of x < frequency_of y → pq_push y [x] = [x; y].
Proof.
  intros Hlt.
  pose proof (pq_push_perm y [x] (is_heap_singleton x)) as Hp.
  pose proof (pq_push_heap y [x] (is_heap_singleton x)) as Hh.
  destruct (pq_push y [x]) as [|a [|b [|? ?]]];
    try (apply Permutation_length in Hp; simpl in Hp; lia).
  apply Permutation_length_2 in Hp as Hab.
  destruct Hab as [[-> ->]|[-> ->]]; [|done].
  apply is_heap_front in Hh. unfold Compare in Hh.
  apply bool_decide_eq_false in Hh. lia.
Qed.

Lemma pq_pop_singleton x : pq_pop [x] = Ok [].
Proof.
  destruct (pq_pop_spec x [] (is_heap_singleton x)) as (v' & -> & Hp & _).
  by apply Permutation_nil_r in Hp as ->.
Qed.

Lemma pq_pop_pair x y : is_heap [x; y] → pq_pop [x; y] = Ok [y].
Proof.
  intros Hh. destruct (pq_pop_spec x [y] Hh) as (v' & -> & Hp & _).
  by apply Permutation_singleton_r in Hp as ->.
Qed.
End HeapFacts.

(** ** The two loops of build_huffman_tree *)

Section BuildFacts.
Context `{HeapAlgorithms}.

Lemma push_leaves_fold frequency :
  push_leaves frequency = foldl (λ pq x, pq_push x pq) [] (leaf_list frequency).
Proof.
  unfold push_leaves, leaf_list.
  generalize (@nil Node) as pq. generalize (seq 0 NUM_CHAR) as ixs.
  induction ixs as [|i ixs IH]; intros pq; [done|].
  simpl foldl. rewrite filter_cons. case_bool_decide; case_decide; try lia.
  - rewrite fmap_cons. simpl foldl. apply IH.
  - apply IH.
Qed.

Lemma merge_loop_done fuel pq :
  (length pq ≤ 1)%nat → merge_loop fuel pq = Ok pq.
Proof.
  intros Hl. destruct fuel; simpl; unfold pq_size;
    case_bool_decide; done || lia.
Qed.

Lemma merge_loop_step fuel pq :
  (1 < length pq)%nat →
  merge_loop (S fuel) pq = merge_step pq ≫= merge_loop fuel.
Proof. intros Hl. simpl. unfold pq_size. by case_bool_decide. Qed.
End BuildFacts.


(** ** Invariants of the merge loop *)

Section MergeInvariant.
Context `{HeapAlgorithms}.

Lemma push_all_spec xs : ∀ pq, is_heap pq →
  is_heap (foldl (λ pq x, pq_push x pq) pq xs) ∧
  foldl (λ pq x, pq_push x pq) pq xs ≡ₚ pq ++ xs.
Proof.
  induction xs as [|x xs IH]; intros pq Hh; simpl.
  - by rewrite app_nil_r.
  - destruct (IH (pq_push x pq) (pq_push_heap x pq Hh)) as [Hh' Hp].
    split; [done|]. rewrite Hp, (pq_push_perm x pq Hh).
    by rewrite (Permutation_middle pq xs x).
Qed.

Lemma push_leaves_heap frequency : is_heap (push_leaves frequency).
Proof. rewrite push_leaves_fold. apply push_all_spec, is_heap_nil. Qed.

Lemma push_leaves_perm frequency : push_leaves frequency ≡ₚ leaf_list frequency.
Proof.
  rewrite push_leaves_fold.
  by destruct (push_all_spec (leaf_list frequency) [] is_heap_nil) as [_ ->].
Qed.

(** What one round does: the two nodes taken out are merged and pushed
    back onto the rest. *)
Lemma merge_step_spec pq : is_heap pq → (1 < length pq)%nat →
  ∃ l r rest, pq ≡ₚ l :: r :: rest ∧ is_heap rest ∧
    merge_step pq =
      int_add (frequency_of l) (frequency_of r) ≫= λ sum,
        Ok (pq_push (MkNode chr_plus sum l r) rest).
Proof.
  intros Hh Hlen. destruct pq as [|x v]; [simpl in Hlen; lia|].
  destruct (pq_pop_spec x v Hh) as (v' & Hpop & Hp & Hh').
  destruct v' as [|y w].
  { apply Permutation_length in Hp. simpl in *. lia. }
  destruct (pq_pop_spec y w Hh') as (w' & Hpop' & Hp' & Hh'').
  exists x, y, w'. split; [|split; [done|]].
  - by rewrite Hp', Hp.
  - unfold merge_step.
    by rewrite pq_top_cons, bind_Ok_l, Hpop, bind_Ok_l, pq_top_cons,
      bind_Ok_l, Hpop', bind_Ok_l.
Qed.

Variable Inv : list Node → Prop.
Hypothesis Inv_perm : ∀ a b, a ≡ₚ b → Inv a → Inv b.
Hypothesis Inv_merge : ∀ l r rest sum,
  Inv (l :: r :: rest) →
  int_add (frequency_of l) (frequency_of r) = Ok sum →
  Inv (MkNode chr_plus sum l r :: rest).

Lemma merge_step_preserves pq pq' :
  is_heap pq → (1 < length pq)%nat → Inv pq → merge_step pq = Ok pq' →
  Inv pq' ∧ is_heap pq' ∧ S (length pq') = length pq.
Proof.
  intros Hh Hlen HI Hstep.
  destruct (merge_step_spec pq Hh Hlen) as (l & r & rest & Hp & Hhr & Heq).
  rewrite Heq in Hstep. apply bind_Ok in Hstep as (sum & Hsum & [= <-]).
  split; [|split].
  - eapply Inv_perm; [symmetry; apply pq_push_perm, Hhr|].
    eapply Inv_merge; [|exact Hsum]. by eapply Inv_perm.
  - by apply pq_push_heap.
  - rewrite (Permutation_length (pq_push_perm _ rest Hhr)).
    rewrite (Permutation_length Hp). done.
Qed.

Lemma merge_loop_preserves fuel : ∀ pq pq',
  is_heap pq → Inv pq → merge_loop fuel pq = Ok pq' →
  Inv pq' ∧ is_heap pq' ∧ (length pq' ≤ 1)%nat ∧ (pq ≠ [] → pq' ≠ []).
Proof.
  induction fuel as [|fuel IH]; intros pq pq' Hh HI Hloop.
  - simpl in Hloop. unfold pq_size in Hloop.
    case_bool_decide; [done|]. injection Hloop as <-.
    repeat split; [done | done | lia | done].
  - destruct (decide (1 < length pq)%nat) as [Hlen|Hlen].
    + rewrite merge_loop_step in Hloop by done.
      apply bind_Ok in Hloop as (pq1 & Hstep & Hloop).
      destruct (merge_step_preserves pq pq1 Hh Hlen HI Hstep) as (HI1 & Hh1 & Hl1).
      destruct (IH pq1 pq' Hh1 HI1 Hloop) as (? & ? & ? & Hne).
      repeat split; [done | done | done |].
      intros _. apply Hne. intros ->. simpl in Hl1. lia.
    + rewrite merge_loop_done in Hloop by lia. injection Hloop as <-.
      repeat split; [done | done | lia | done].
Qed.

(** With an invariant that excludes overflow the loop runs to its end
    within [length pq] rounds. *)
Hypothesis Inv_no_overflow : ∀ l r rest,
  Inv (l :: r :: rest) → is_ok (int_add (frequency_of l) (frequency_of r)) = true.

Lemma merge_loop_total fuel : ∀ pq,
  is_heap pq → Inv pq → (length pq ≤ fuel)%nat →
  ∃ pq', merge_loop fuel pq = Ok pq'.
Proof.
  induction fuel as [|fuel IH]; intros pq Hh HI Hlen.
  - exists pq. apply merge_loop_done. lia.
  - destruct (decide (1 < length pq)%nat) as [Hgt|Hle].
    + rewrite merge_loop_step by done.
      destruct (merge_step_spec pq Hh Hgt) as (l & r & rest & Hp & Hhr & Heq).
      assert (HI' : Inv (l :: r :: rest)) by (by eapply Inv_perm).
      pose proof (Inv_no_overflow l r rest HI') as Hok.
      destruct (int_add (frequency_of l) (frequency_of r)) as [sum|] eqn:Hsum;
        [|done].
      assert (Hstep : merge_step pq = Ok (pq_push (MkNode chr_plus sum l r) rest)).
      { by rewrite Heq. }
      destruct (merge_step_preserves pq _ Hh Hgt HI Hstep) as (HI1 & Hh1 & Hl1).
      rewrite Hstep, bind_Ok_l. apply IH; [done | done | lia].
    + exists pq. apply merge_loop_done. lia.
Qed.
End MergeInvariant.

(** ** The built tree is full and carries sums *)

Lemma full_tree_not_null p : full_tree p → p ≠ Null.
Proof. by destruct p. Qed.

Lemma is_null_false p : p ≠ Null → is_null p = false.
Proof. by destruct p. Qed.

Lemma full_tree_node_ok p : full_tree p → node_ok p.
Proof.
  destruct p as [|ch f l r]; [done|]. intros [[-> ->]|(Hf & Hl & Hr)].
  - split; [by left | done].
  - apply full_tree_not_null, is_null_false in Hl as Hln.
    apply full_tree_not_null, is_null_false in Hr as Hrn.
    unfold node_ok. simpl. rewrite Hln, Hrn. split; [by right | done].
Qed.

Lemma full_tree_nodes p : full_tree p → Forall node_ok (nodes p).
Proof.
  induction p as [|ch f l IHl r IHr]; [done|]. intros Hfull.
  simpl. constructor; [by apply full_tree_node_ok|].
  destruct Hfull as [[-> ->]|(_ & Hl & Hr)]; [constructor|].
  apply Forall_app. auto.
Qed.

Lemma to_int_id z : INT_MIN ≤ z ≤ INT_MAX → to_int z = z.
Proof.
  unfold to_int, INT_MIN, INT_MAX. intros Hz.
  rewrite Z.mod_small by lia. lia.
Qed.

Lemma int_add_Ok a b sum : int_add a b = Ok sum → sum = a + b.
Proof. unfold int_add. case_bool_decide; congruence. Qed.

Lemma leaf_list_full frequency : Forall full_tree (leaf_list frequency).
Proof.
  unfold leaf_list. apply Forall_fmap, Forall_forall. intros i _.
  simpl. by left.
Qed.

Lemma sumz_app l k : sumz (l ++ k) = sumz l + sumz k.
Proof. induction l as [|x l IH]; simpl; [done|]. rewrite IH. lia. Qed.

Lemma sumz_perm l k : l ≡ₚ k → sumz l = sumz k.
Proof. induction 1; simpl; lia. Qed.

Lemma sumz_elem_le l x : Forall (λ y, 0 ≤ y) l → x ∈ l → x ≤ sumz l.
Proof.
  induction 1 as [|y l Hy Hl IH]; [by intros ?%elem_of_nil|].
  assert (0 ≤ sumz l).
  { clear IH. induction Hl; simpl; lia. }
  intros [->|Hin]%elem_of_cons; simpl; [lia|]. specialize (IH Hin). lia.
Qed.

Lemma lookup_total_seq_fmap (frequency : list Z) :
  (λ i : nat, frequency !!! i) <$> seq 0 (length frequency) = frequency.
Proof.
  apply list_eq. intros i. rewrite list_lookup_fmap.
  destruct (decide (i < length frequency)%nat) as [Hi|Hi].
  - rewrite lookup_seq_lt by done. simpl.
    symmetry. by apply list_lookup_lookup_total_lt.
  - rewrite lookup_seq_ge by lia. simpl.
    symmetry. apply lookup_ge_None. lia.
Qed.

(** The queue invariant that rules out overflow of [int]. *)
Definition bounded_queue (pq : list Node) : Prop :=
  Forall (λ p, 0 ≤ frequency_of p) pq ∧ sumz (frequency_of <$> pq) ≤ INT_MAX.

Lemma bounded_queue_perm a b : a ≡ₚ b → bounded_queue a → bounded_queue b.
Proof.
  intros Hp [Hpos Hsum]. split; [by rewrite <- Hp|].
  by rewrite <- (sumz_perm _ _ (fmap_Permutation frequency_of _ _ Hp)).
Qed.

Lemma bounded_queue_merge l r rest sum :
  bounded_queue (l :: r :: rest) →
  int_add (frequency_of l) (frequency_of r) = Ok sum →
  bounded_queue (MkNode chr_plus sum l r :: rest).
Proof.
  intros [Hpos Hsum] ->%int_add_Ok.
  apply Forall_cons in Hpos as [Hl Hpos]. apply Forall_cons in Hpos as [Hr Hpos].
  split.
  - constructor; [simpl; lia | done].
  - simpl in *. lia.
Qed.

Lemma bounded_queue_no_overflow l r rest :
  bounded_queue (l :: r :: rest) →
  is_ok (int_add (frequency_of l) (frequency_of r)) = true.
Proof.
  intros [Hpos Hsum].
  apply Forall_cons in Hpos as [Hl Hpos]. apply Forall_cons in Hpos as [Hr Hpos].
  assert (0 ≤ sumz (frequency_of <$> rest)).
  { clear Hsum. induction Hpos; csimpl in *; lia. }
  unfold int_add. rewrite bool_decide_eq_true_2; [done|].
  unfold INT_MIN, INT_MAX in *. csimpl in Hsum. lia.
Qed.

Lemma leaf_frequencies (frequency : list Z) (ixs : list nat) :
  (∀ i : nat, 0 ≤ frequency !!! i ≤ INT_MAX) →
  let leaves := (λ i : nat, make_node (Z.of_nat i) (frequency !!! i))
                  <$> filter (λ i : nat, frequency !!! i > 0) ixs in
  Forall (λ p, 0 ≤ frequency_of p) leaves ∧
  sumz (frequency_of <$> leaves) = sumz ((λ i : nat, frequency !!! i) <$> ixs).
Proof.
  intros Hg. induction ixs as [|i ixs [IHpos IHsum]]; [by split|].
  cbv zeta. rewrite filter_cons. specialize (Hg i). case_decide as Hi.
  - assert (Hfi : frequency_of (make_node (Z.of_nat i) (frequency !!! i))
                  = frequency !!! i).
    { simpl. apply to_int_id. unfold INT_MIN. lia. }
    rewrite !fmap_cons. split.
    + constructor; [rewrite Hfi; lia | done].
    + change (sumz (?x :: ?l)) with (x + sumz l). by rewrite Hfi, IHsum.
  - split; [done|]. rewrite fmap_cons.
    change (sumz (?x :: ?l)) with (x + sumz l). rewrite IHsum. lia.
Qed.

Lemma leaf_list_bounded frequency :
  length frequency = NUM_CHAR →
  Forall (λ x, 0 ≤ x) frequency → sumz frequency ≤ INT_MAX →
  bounded_queue (leaf_list frequency).
Proof.
  intros Hlen Hpos Hsum.
  assert (Hg : ∀ i : nat, 0 ≤ frequency !!! i ≤ INT_MAX).
  { intros i. destruct (decide (i < length frequency)%nat) as [Hi|Hi].
    - assert (Hin : frequency !!! i ∈ frequency).
      { by apply list_elem_of_lookup_total_2. }
      split; [by apply (proj1 (Forall_forall _ _) Hpos)|].
      pose proof (sumz_elem_le _ _ Hpos Hin). lia.
    - rewrite list_lookup_total_alt, (proj2 (lookup_ge_None _ _)) by lia.
      simpl. unfold INT_MAX. lia. }
  destruct (leaf_frequencies frequency (seq 0 NUM_CHAR) Hg) as [Hp Hs].
  split; [exact Hp|]. unfold leaf_list. rewrite Hs.
  by rewrite <- Hlen, lookup_total_seq_fmap.
Qed.

Lemma leaf_list_nonempty (frequency : list Z) :
  length frequency = NUM_CHAR → Exists (λ x, x > 0) frequency →
  leaf_list frequency ≠ [].
Proof.
  intros Hlen Hex Hp.
  apply Exists_exists in Hex as (x & Hin & Hx).
  apply list_elem_of_lookup in Hin as (i & Hi).
  assert (Hlt : (i < NUM_CHAR)%nat).
  { rewrite <- Hlen. by eapply lookup_lt_Some. }
  assert (Hmem : make_node (Z.of_nat i) (frequency !!! i) ∈ leaf_list frequency).
  { unfold leaf_list.
    apply (list_elem_of_fmap_2
             (λ i : nat, make_node (Z.of_nat i) (frequency !!! i))).
    apply list_elem_of_filter. split.
    - by rewrite (list_lookup_total_correct _ _ _ Hi).
    - apply elem_of_seq. lia. }
  rewrite Hp in Hmem. by apply elem_of_nil in Hmem.
Qed.

Section BuildResult.
Context `{HeapAlgorithms}.

Lemma build_huffman_tree_full frequency tree :
  build_huffman_tree frequency = Ok tree → full_tree tree.
Proof.
  unfold build_huffman_tree. intros (pq' & Hloop & Htop)%bind_Ok.
  apply (merge_loop_preserves (Forall full_tree)) in Hloop as (Hfull & _).
  - destruct pq' as [|x pq']; [done|]. injection Htop as <-.
    by apply Forall_cons in Hfull as [? _].
  - intros a b Hp. by rewrite Hp.
  - intros l r rest sum Hall ->%int_add_Ok.
    apply Forall_cons in Hall as [Hl Hall]. apply Forall_cons in Hall as [Hr Hall].
    constructor; [|done]. simpl. right. done.
  - apply push_leaves_heap.
  - rewrite push_leaves_perm. apply leaf_list_full.
Qed.

Lemma build_huffman_tree_total frequency :
  length frequency = NUM_CHAR →
  Forall (λ x, 0 ≤ x) frequency → sumz frequency ≤ INT_MAX →
  Exists (λ x, x > 0) frequency →
  ∃ tree, build_huffman_tree frequency = Ok tree.
Proof.
  intros Hlen Hpos Hsum Hex. unfold build_huffman_tree, pq_size.
  generalize (push_leaves_heap frequency) (push_leaves_perm frequency).
  generalize (push_leaves frequency) as pq. intros pq Hheap Hperm.
  assert (Hb : bounded_queue pq).
  { eapply bounded_queue_perm; [symmetry; exact Hperm|].
    by apply leaf_list_bounded. }
  destruct (merge_loop_total bounded_queue bounded_queue_perm
              bounded_queue_merge bounded_queue_no_overflow
              (length pq) pq Hheap Hb (le_n _)) as [pq' Hloop].
  rewrite Hloop, bind_Ok_l.
  apply (merge_loop_preserves bounded_queue bounded_queue_perm
           bounded_queue_merge) in Hloop as (_ & _ & _ & Hne);
    [|exact Hheap | exact Hb].
  destruct pq' as [|x pq']; [|by exists x].
  exfalso. apply Hne; [|reflexivity]. intros ->.
  apply Permutation_nil_l in Hperm. symmetry in Hperm.
  by apply (leaf_list_nonempty frequency).
Qed.
End BuildResult.

(** ** Codes are paths to leaves *)

Lemma walk_Null code : walk Null code = Null.
Proof. by destruct code. Qed.

Lemma walk_app p code1 code2 :
  walk p (code1 ++ code2) = walk (walk p code1) code2.
Proof.
  revert p. induction code1 as [|bit code1 IH]; intros p; [reflexivity|].
  destruct p as [|ch f l r]; simpl; [by rewrite !walk_Null|].
  case_bool_decide; apply IH.
Qed.

Lemma walk_leaf_nil p code : is_leaf p → is_leaf (walk p code) → code = [].
Proof.
  intros (ch & f & ->) Hleaf. destruct code as [|bit code]; [done|].
  simpl in Hleaf. rewrite !walk_Null in Hleaf.
  case_bool_decide; by destruct Hleaf as (? & ? & ?).
Qed.

(** Every slot that [generate_dictionary] changes holds the path from the
    root to a leaf whose character is the index of the slot. *)
Lemma generate_dictionary_spec root : ∀ code dict d,
  generate_dictionary root code dict = Ok d →
  ∀ i : nat, d !! i = dict !! i ∨
    ∃ path, d !! i = Some (code ++ path) ∧ is_leaf (walk root path) ∧
            Z.to_nat (character_of (walk root path)) = i.
Proof.
  induction root as [|ch f l IHl r IHr]; intros code dict d Hgen i; [done|].
  simpl in Hgen. destruct (is_null l && is_null r) eqn:Hleaf.
  - injection Hgen as <-. apply andb_true_iff in Hleaf as [Hl Hr].
    destruct l; [|done]. destruct r; [|done].
    destruct (decide (i = Z.to_nat ch)) as [->|Hne].
    + destruct (decide (Z.to_nat ch < length dict)%nat) as [Hlt|Hge].
      * right. exists []. rewrite app_nil_r.
        split; [by apply list_lookup_insert_eq|]. split; [by eexists _, _|done].
      * left. by rewrite list_insert_ge by lia.
    + left. by apply list_lookup_insert_ne.
  - apply bind_Ok in Hgen as (dict1 & Hgl & Hgr).
    assert (Hright : d !! i = dict1 !! i ∨
      ∃ path, d !! i = Some (code ++ path) ∧ is_leaf (walk (MkNode ch f l r) path) ∧
              Z.to_nat (character_of (walk (MkNode ch f l r) path)) = i).
    { destruct (is_null r) eqn:Hr; [left; congruence|].
      destruct (IHr _ _ _ Hgr i) as [?|(path & Hd & Hw & Hc)]; [by left|].
      right. exists (chr_1 :: path). rewrite <- app_assoc in Hd. done. }
    destruct Hright as [Hd1|?]; [|by right]. rewrite Hd1.
    destruct (is_null l) eqn:Hl; [left; congruence|].
    destruct (IHl _ _ _ Hgl i) as [?|(path & Hd & Hw & Hc)]; [by left|].
    right. exists (chr_0 :: path). rewrite <- app_assoc in Hd. done.
Qed.

Lemma generate_dictionary_total root : ∀ code dict,
  root ≠ Null → ∃ d, generate_dictionary root code dict = Ok d.
Proof.
  induction root as [|ch f l IHl r IHr]; intros code dict Hne; [done|].
  simpl. destruct (is_null l && is_null r); [by eexists|].
  assert (∃ dict1, (if is_null l then Ok dict
                    else generate_dictionary l (code ++ [chr_0]) dict) = Ok dict1)
    as [dict1 ->].
  { destruct l; [by eexists|]. by apply IHl. }
  rewrite bind_Ok_l. destruct r; [by eexists|]. by apply IHr.
Qed.

Lemma empty_dict_lookup_total (i : nat) : empty_dict !!! i = @nil Z.
Proof.
  unfold empty_dict. destruct (decide (i < NUM_CHAR)%nat).
  - by apply lookup_total_replicate_2.
  - rewrite list_lookup_total_alt, (proj2 (lookup_ge_None _ _)); [done|].
    rewrite length_replicate. lia.
Qed.

(** The dictionary of any tree is prefix-free. *)
Lemma generate_dictionary_prefix_free root d :
  generate_dictionary root [] empty_dict = Ok d → prefix_free d.
Proof.
  intros Hgen i j Hij Hi Hpre.
  assert (Hcode : ∀ k : nat, d !!! k = [] ∨
    ∃ path, d !!! k = path ∧ is_leaf (walk root path) ∧
            Z.to_nat (character_of (walk root path)) = k).
  { intros k. destruct (generate_dictionary_spec _ _ _ _ Hgen k)
      as [Heq|(path & Hd & Hw & Hc)].
    - left. rewrite list_lookup_total_alt, Heq, <- list_lookup_total_alt.
      apply empty_dict_lookup_total.
    - right. exists path. by rewrite (list_lookup_total_correct _ _ _ Hd). }
  destruct (Hcode i) as [?|(pi & Hdi & Hli & Hci)]; [done|].
  destruct (Hcode j) as [Hdj|(pj & Hdj & Hlj & Hcj)].
  - rewrite Hdj in Hpre. by apply prefix_nil_inv in Hpre.
  - rewrite Hdi, Hdj in Hpre. destruct Hpre as [k ->].
    rewrite walk_app in Hlj, Hcj.
    pose proof (walk_leaf_nil _ _ Hli Hlj) as ->.
    simpl in Hcj. congruence.
Qed.

(** ** The frequency table *)

Lemma to_uchar_range z : 0 ≤ to_uchar z < 256.
Proof. unfold to_uchar. apply Z.mod_pos_bound. lia. Qed.

Lemma sumz_insert (l : list Z) (i : nat) y :
  (i < length l)%nat → sumz (<[i:=y]> l) = sumz l - l !!! i + y.
Proof.
  revert i. induction l as [|x l IH]; intros i Hi; [simpl in Hi; lia|].
  destruct i as [|i]; simpl.
  - change (sumz (?a :: ?b)) with (a + sumz b). lia.
  - change (sumz (?a :: ?b)) with (a + sumz b).
    rewrite IH by (simpl in Hi; lia).
    change ((x :: l) !!! S i) with (l !!! i). lia.
Qed.

Lemma sumz_nonneg l : Forall (λ x, 0 ≤ x) l → 0 ≤ sumz l.
Proof.
  induction 1 as [|x l Hx _ IH]; [done|].
  change (sumz (x :: l)) with (x + sumz l). lia.
Qed.

(** Histogram conservation, for texts short enough not to wrap a slot. *)
Lemma fill_frequency_facts text : ∀ frequency,
  length frequency = NUM_CHAR →
  Forall (λ x, 0 ≤ x) frequency →
  sumz frequency + Z.of_nat (length text) < 2 ^ 32 →
  length (fill_frequency text frequency) = NUM_CHAR ∧
  Forall (λ x, 0 ≤ x) (fill_frequency text frequency) ∧
  sumz (fill_frequency text frequency) = sumz frequency + Z.of_nat (length text).
Proof.
  induction text as [|ch text IH]; intros fr Hlen Hpos Hsum.
  - simpl. repeat split; [done | done | lia].
  - unfold fill_frequency. simpl foldl.
    set (i := Z.to_nat (to_uchar ch)).
    assert (Hi : (i < length fr)%nat).
    { rewrite Hlen. unfold i, NUM_CHAR. pose proof (to_uchar_range ch). lia. }
    assert (Hin : fr !!! i ∈ fr) by (by apply list_elem_of_lookup_total_2).
    assert (0 ≤ fr !!! i) by (by apply (proj1 (Forall_forall _ _) Hpos)).
    pose proof (sumz_elem_le _ _ Hpos Hin) as Hle.
    assert (Hwrap : to_uint (fr !!! i + 1) = fr !!! i + 1).
    { unfold to_uint. apply Z.mod_small. simpl length in Hsum. lia. }
    rewrite Hwrap.
    destruct (IH (<[i:=fr !!! i + 1]> fr)) as (IH1 & IH2 & IH3).
    + by rewrite length_insert.
    + apply Forall_insert; [done | lia].
    + rewrite sumz_insert by done. simpl length in Hsum. lia.
    + fold (fill_frequency text (<[i:=fr !!! i + 1]> fr)).
      repeat split; [done | done |].
      rewrite IH3, sumz_insert by done. simpl length. lia.
Qed.

Lemma init_frequency_facts :
  length init_frequency = NUM_CHAR ∧
  Forall (λ x, 0 ≤ x) init_frequency ∧ sumz init_frequency = 0.
Proof.
  unfold init_frequency. split; [apply length_replicate|]. split.
  - by apply Forall_replicate.
  - induction NUM_CHAR as [|n IH]; [done|].
    simpl replicate. change (sumz (?a :: ?b)) with (a + sumz b). lia.
Qed.

Lemma sumz_pos_Exists l : 0 < sumz l → Exists (λ x, x > 0) l.
Proof.
  induction l as [|x l IH]; [simpl; lia|].
  change (sumz (x :: l)) with (x + sumz l). intros Hs.
  destruct (decide (x > 0)); [by left | right; apply IH; lia].
Qed.

Section TextLevel.
Context `{HeapAlgorithms}.

(** A non-empty text of at most [INT_MAX] bytes always gets a tree. *)
Lemma build_huffman_tree_text_total text :
  text ≠ [] → Z.of_nat (length text) ≤ INT_MAX →
  ∃ tree, build_huffman_tree (fill_frequency text init_frequency) = Ok tree.
Proof.
  intros Hne Hmax.
  destruct init_frequency_facts as (Hl0 & Hp0 & Hs0).
  destruct (fill_frequency_facts text init_frequency Hl0 Hp0) as (Hl & Hp & Hs).
  { rewrite Hs0. unfold INT_MAX in Hmax. lia. }
  apply build_huffman_tree_total; [done | done | |].
  - rewrite Hs, Hs0. lia.
  - apply sumz_pos_Exists. rewrite Hs, Hs0.
    destruct text; [done | simpl; lia].
Qed.
End TextLevel.

(** ** The bit packer *)

Ltac div_lia := zify; Z.to_euclidean_division_equations; lia.

Lemma encode_text_concat text dict :
  encode_text text dict
  = concat ((λ ch, dict !!! Z.to_nat (to_uchar ch)) <$> text).
Proof.
  unfold encode_text.
  assert (Hgen : ∀ acc, foldl (λ encoded ch,
      encoded ++ dict !!! Z.to_nat (to_uchar ch)) acc text
    = acc ++ concat ((λ ch, dict !!! Z.to_nat (to_uchar ch)) <$> text)).
  { induction text as [|ch text IH]; intros acc; simpl.
    - by rewrite app_nil_r.
    - by rewrite IH, app_assoc. }
  apply Hgen.
Qed.

Lemma is_one_None : is_one None = false.
Proof. done. Qed.

Lemma testbit_set_bit buffer (p j : nat) :
  (p < 8)%nat → (j < 8)%nat →
  Z.testbit (to_uchar (Z.lor buffer (Z.shiftl 1 (7 - Z.of_nat p)))) (7 - Z.of_nat j)
  = Z.testbit buffer (7 - Z.of_nat j) || bool_decide (j = p).
Proof.
  intros Hp Hj. unfold to_uchar. change 256 with (2 ^ 8).
  rewrite Z.mod_pow2_bits_low by lia.
  rewrite Z.lor_spec, Z.shiftl_1_l, Z.pow2_bits_eqb by lia.
  f_equal. case_bool_decide; lia.
Qed.

Lemma pack_inv_nil : pack_inv [] ([], 0, 0).
Proof.
  exists [], 0. simpl. repeat split; try lia; try done.
  intros j _. by rewrite Z.bits_0.
Qed.

Lemma pack_step_inv bits st b :
  pack_inv bits st → pack_inv (bits ++ [b]) (pack_step st b).
Proof.
  intros (out & buffer & -> & Hlen & Hbuf & Hout & Hbits & Hcur).
  set (n := length bits) in *. set (p := (n mod 8)%nat) in *.
  assert (Hp : (p < 8)%nat) by (unfold p; div_lia).
  set (buffer' := if bool_decide (b = chr_1)
                  then to_uchar (Z.lor buffer (Z.shiftl 1 (7 - Z.of_nat p)))
                  else buffer).
  assert (Hbuf' : 0 ≤ buffer' < 256).
  { unfold buffer'. case_bool_decide; [apply to_uchar_range | done]. }
  assert (Hcur' : ∀ j : nat, (j < 8)%nat →
    Z.testbit buffer' (7 - Z.of_nat j)
    = is_one ((bits ++ [b]) !! (8 * (n / 8) + j)%nat)).
  { intros j Hj. specialize (Hcur j Hj).
    destruct (decide (j < p)%nat) as [Hlt|Hge];
      [|destruct (decide (j = p)) as [->|Hne]].
    - rewrite lookup_app_l by (unfold p, n in *; div_lia).
      rewrite <- Hcur. unfold buffer'. case_bool_decide; [|done].
      rewrite testbit_set_bit by done.
      rewrite (bool_decide_eq_false_2 (j = p)) by lia. by rewrite orb_false_r.
    - replace (8 * (n / 8) + p)%nat with n in * by (unfold p; div_lia).
      rewrite (proj2 (lookup_ge_None bits n)) in Hcur by (unfold n; lia).
      rewrite is_one_None in Hcur.
      rewrite lookup_app_r by (unfold n; lia).
      replace (n - length bits)%nat with 0%nat by (unfold n; lia).
      simpl. unfold is_one, buffer'. case_bool_decide as Hb.
      + rewrite testbit_set_bit by done. rewrite Hcur. simpl.
        rewrite !bool_decide_eq_true_2; [done | by subst | done].
      + rewrite Hcur. symmetry. apply bool_decide_eq_false_2. congruence.
    - rewrite (proj2 (lookup_ge_None bits _)) in Hcur
        by (unfold p, n in *; div_lia).
      rewrite (proj2 (lookup_ge_None (bits ++ [b]) _))
        by (rewrite length_app; cbn [length]; unfold p, n in *; div_lia).
      rewrite is_one_None in *. unfold buffer'. case_bool_decide; [|done].
      rewrite testbit_set_bit by done. rewrite Hcur.
      by rewrite (bool_decide_eq_false_2 (j = p)) by lia. }
  unfold pack_inv, pack_step. cbv zeta. fold p. fold buffer'.
  rewrite length_app. cbn [length]. fold n.
  case_bool_decide as Hfull.
  - exists (out ++ [buffer']), 0.
    assert (Hmod : ((n + 1) mod 8 = 0)%nat) by (unfold p in *; div_lia).
    assert (Hdiv : ((n + 1) / 8 = n / 8 + 1)%nat) by (unfold p in *; div_lia).
    rewrite Hmod, Hdiv. split; [done|]. split; [rewrite length_app; cbn [length]; lia|].
    split; [lia|]. split; [apply Forall_app; split; [done | by constructor]|].
    split.
    + intros k Hk. destruct (decide (k < 8 * (n / 8))%nat) as [Hlt|Hge].
      * rewrite lookup_total_app_l by (rewrite Hlen; div_lia).
        rewrite lookup_app_l by (unfold n in *; div_lia). by apply Hbits.
      * rewrite lookup_total_app_r by (rewrite Hlen; div_lia).
        replace (k / 8 - length out)%nat with 0%nat by (rewrite Hlen; div_lia).
        change ([buffer'] !!! 0%nat) with buffer'.
        rewrite (Hcur' (k mod 8)%nat) by div_lia.
        f_equal. f_equal. div_lia.
    + intros j Hj. rewrite Z.bits_0.
      rewrite (proj2 (lookup_ge_None _ _)); [done|].
      rewrite length_app. cbn [length]. fold n. div_lia.
  - exists out, buffer'.
    assert (Hmod : ((n + 1) mod 8 = p + 1)%nat) by (unfold p in *; div_lia).
    assert (Hdiv : ((n + 1) / 8 = n / 8)%nat) by (unfold p in *; div_lia).
    rewrite Hmod, Hdiv. split; [f_equal; lia|]. split; [done|].
    split; [done|]. split; [done|]. split; [|done].
    intros k Hk. rewrite lookup_app_l by (unfold n in *; div_lia).
    by apply Hbits.
Qed.

Lemma pack_loop_inv bits : pack_inv bits (foldl pack_step ([], 0, 0) bits).
Proof.
  induction bits as [|b bits IH] using rev_ind; [apply pack_inv_nil|].
  rewrite foldl_snoc. by apply pack_step_inv.
Qed.

(** ** Reading from the stream *)

Lemma stream_read_buf n s : buf (stream_read n s).2 = buf s.
Proof.
  unfold stream_read. destruct (failbit s); [done|]. by case_bool_decide.
Qed.

(** A read that the rest of the file can serve. *)
Lemma stream_read_prefix s bytes rest :
  failbit s = false → drop (gpos s) (buf s) = bytes ++ rest →
  stream_read (length bytes) s
  = (bytes, at_pos (buf s) (gpos s + length bytes)).
Proof.
  intros Hgood Hdrop. unfold stream_read. rewrite Hgood, Hdrop.
  rewrite bool_decide_eq_true_2 by (rewrite length_app; lia).
  by rewrite take_app_length.
Qed.

Lemma drop_after_prefix {A} (l : list A) p bytes rest :
  drop p l = bytes ++ rest → drop (p + length bytes) l = rest.
Proof. intros Hdrop. by rewrite <- drop_drop, Hdrop, drop_app_length. Qed.

Lemma read_char_prefix s b rest :
  failbit s = false → drop (gpos s) (buf s) = b :: rest →
  read_char s = (Some b, at_pos (buf s) (gpos s + 1)).
Proof.
  intros Hgood Hdrop. unfold read_char.
  pose proof (stream_read_prefix s [b] rest Hgood Hdrop) as Hr.
  cbn [length] in Hr. by rewrite Hr.
Qed.

(** ** Inserting a code *)

Lemma insert_code_total code : ∀ sym current,
  current ≠ Null →
  ∃ t, insert_code code sym current = Ok t ∧ t ≠ Null.
Proof.
  induction code as [|bit code IH]; intros sym current Hne;
    destruct current as [|ch f l r]; try done; simpl.
  - by eexists.
  - case_bool_decide.
    + destruct (IH sym (if is_null l then make_node chr_plus 0 else l))
        as (t & -> & _); [by destruct l|]. by eexists.
    + destruct (IH sym (if is_null r then make_node chr_plus 0 else r))
        as (t & -> & _); [by destruct r|]. by eexists.
Qed.

(** The inserted code leads, by the decoder's steps, to a node that holds
    the symbol. *)
Lemma insert_code_walk code : ∀ sym current t,
  insert_code code sym current = Ok t →
  walk t code ≠ Null ∧ character_of (walk t code) = sym.
Proof.
  induction code as [|bit code IH]; intros sym current t Hins;
    destruct current as [|ch f l r]; try done; simpl in Hins.
  - by injection Hins as <-.
  - case_bool_decide as Hbit.
    + apply bind_Ok in Hins as (l' & Hl & [= <-]). simpl.
      rewrite bool_decide_eq_true_2 by done. by eapply IH.
    + apply bind_Ok in Hins as (r' & Hr & [= <-]). simpl.
      rewrite bool_decide_eq_false_2 by done. by eapply IH.
Qed.

Lemma insert_entries_total es : ∀ root,
  root ≠ Null → ∃ t, insert_entries es root = Ok t ∧ t ≠ Null.
Proof.
  induction es as [|[[sym len] chars] es IH]; intros root Hne; simpl.
  - by eexists.
  - destruct (insert_code_total chars sym root Hne) as (t & -> & Ht).
    rewrite bind_Ok_l. by apply IH.
Qed.

(** ** Reading entries that lie in the file *)

Section ReadEntries.
Context `{CharType}.

Lemma to_uchar_char_value b : 0 ≤ b < 256 → to_uchar (char_value b) = b.
Proof.
  intros Hb. unfold char_value, to_uchar.
  destruct (char_signed && bool_decide (128 ≤ b)).
  - replace (b - 256) with (b + (-1) * 256) by lia.
    rewrite Z.mod_add by lia. apply Z.mod_small. lia.
  - apply Z.mod_small. lia.
Qed.

Lemma char_value_small b : 0 ≤ b ≤ char_max → char_value b = b.
Proof.
  unfold char_value, char_max. intros Hb. destruct char_signed; [|done].
  simpl. by rewrite bool_decide_eq_false_2 by lia.
Qed.

Lemma char_value_le b : char_value b ≤ b.
Proof. unfold char_value. destruct (_ && _); lia. Qed.

Lemma read_entry_wire s root sym len chars rest :
  failbit s = false → wire_ok (sym, len, chars) →
  drop (gpos s) (buf s) = wire_bytes (sym, len, chars) ++ rest →
  read_entry s root =
    root' ← insert_code chars sym root;
    Ok (root', at_pos (buf s) (gpos s + length (wire_bytes (sym, len, chars)))).
Proof.
  intros Hgood (Hsym & Hlen & Hval & Hchars) Hdrop. simpl in Hdrop.
  unfold read_entry.
  rewrite (read_char_prefix s sym _ Hgood Hdrop).
  assert (Hdrop1 : drop (gpos s + 1) (buf s) = len :: chars ++ rest).
  { by apply (drop_after_prefix _ _ [sym]). }
  rewrite (read_char_prefix (at_pos (buf s) (gpos s + 1)) len _ eq_refl Hdrop1).
  rewrite bool_decide_eq_false_2 by lia.
  assert (Hdrop2 : drop (gpos s + 1 + 1) (buf s) = chars ++ rest).
  { by apply (drop_after_prefix _ _ [len]). }
  rewrite <- Hchars.
  change (buf (at_pos ?b ?p)) with b. change (gpos (at_pos ?b ?p)) with p.
  rewrite (stream_read_prefix (at_pos (buf s) (gpos s + 1 + 1)) chars rest
             eq_refl Hdrop2).
  rewrite Nat.sub_diag. simpl replicate. rewrite app_nil_r.
  rewrite to_uchar_char_value by done.
  change (buf (at_pos ?b ?p)) with b. change (gpos (at_pos ?b ?p)) with p.
  replace (gpos s + length (wire_bytes (sym, len, chars)))%nat
    with (gpos s + 1 + 1 + length chars)%nat by (simpl; lia).
  reflexivity.
Qed.

Lemma read_entries_wire es : ∀ s root rest,
  failbit s = false → Forall wire_ok es →
  drop (gpos s) (buf s) = concat (wire_bytes <$> es) ++ rest →
  read_entries (length es) s root =
    root' ← insert_entries es root;
    Ok (root', at_pos (buf s) (gpos s + length (concat (wire_bytes <$> es)))).
Proof.
  induction es as [|[[sym len] chars] es IH]; intros s root rest Hgood Hok Hdrop.
  - simpl. destruct s as [b p fl]. simpl in *. subst fl.
    unfold at_pos. do 3 f_equal. lia.
  - apply Forall_cons in Hok as [He Hes].
    change (concat (wire_bytes <$> (sym, len, chars) :: es))
      with (wire_bytes (sym, len, chars) ++ concat (wire_bytes <$> es)) in *.
    rewrite <- app_assoc in Hdrop.
    cbn [length read_entries].
    rewrite (read_entry_wire s root sym len chars _ Hgood He Hdrop).
    simpl insert_entries.
    destruct (insert_code chars sym root) as [root1|] eqn:Hins; [|done].
    rewrite !bind_Ok_l.
    rewrite (IH (at_pos (buf s) (gpos s + length (wire_bytes (sym, len, chars))))
               root1 rest eq_refl Hes).
    + change (buf (at_pos ?b ?p)) with b. change (gpos (at_pos ?b ?p)) with p.
      rewrite (length_app (wire_bytes (sym, len, chars))).
      by rewrite Nat.add_assoc.
    + change (buf (at_pos ?b ?p)) with b. change (gpos (at_pos ?b ?p)) with p.
      by apply drop_after_prefix.
Qed.
End ReadEntries.

(** ** The header that the writer emits, and reading it back *)

Section Header.
Context `{CharType}.

Lemma write_entries_wire dict : ∀ i bytes,
  write_entries i dict = Ok bytes →
  bytes = concat (wire_bytes <$> dict_entries i dict) ∧
  Forall wire_ok (dict_entries i dict).
Proof.
  induction dict as [|code dict IH]; intros i bytes Hw; simpl in Hw.
  - injection Hw as <-. by split.
  - apply bind_Ok in Hw as (here & Hhere & Hw).
    apply bind_Ok in Hw as (rest & Hrest & [= <-]).
    destruct (IH _ _ Hrest) as [-> Hok]. simpl dict_entries.
    case_bool_decide as Hcode.
    + unfold write_entry in Hhere. case_bool_decide as Hneg; [done|].
      injection Hhere as <-. split; [done|]. constructor; [|done].
      pose proof (to_uchar_range (Z.of_nat i)).
      pose proof (to_uchar_range (Z.of_nat (length code))) as Hlen.
      pose proof (char_value_le (to_uchar (Z.of_nat (length code)))).
      repeat split; try lia.
      rewrite length_take. unfold to_uchar in *.
      assert (Z.of_nat (length code) `mod` 256 ≤ Z.of_nat (length code)).
      { apply Z.mod_le; lia. }
      lia.
    + injection Hhere as <-. by split.
Qed.

Lemma dict_entries_length dict : ∀ i,
  length (dict_entries i dict) = count_codes dict.
Proof.
  unfold count_codes. induction dict as [|code dict IH]; intros i; [done|].
  simpl dict_entries. rewrite filter_cons, length_app, IH.
  case_bool_decide; case_decide; done.
Qed.

(** The reader takes the entries that the count byte announces; they are
    the first of those that the writer emitted. *)
Lemma read_written_header dict encoded_text file root :
  write_compressed_file dict encoded_text = Ok file →
  let es := dict_entries 0 dict in
  let n := Z.to_nat (char_value (to_uchar (Z.of_nat (count_codes dict)))) in
  read_huffman_dictionary (open_file file) root =
    root' ← insert_entries (take n es) root;
    Ok (root', at_pos file (1 + length (concat (wire_bytes <$> take n es)))).
Proof.
  intros (entries & Hw & [= <-])%bind_Ok es n.
  destruct (write_entries_wire _ _ _ Hw) as [-> Hok]. fold es in Hok |- *.
  set (ds := to_uchar (Z.of_nat (count_codes dict))) in *.
  set (file := ds :: concat (wire_bytes <$> es) ++ pack_bits encoded_text).
  assert (Hn : (n ≤ length es)%nat).
  { unfold es. rewrite dict_entries_length. unfold n.
    pose proof (char_value_le ds).
    assert (ds ≤ Z.of_nat (count_codes dict)).
    { unfold ds, to_uchar. apply Z.mod_le; lia. }
    lia. }
  assert (Hlen : length (take n es) = n) by (rewrite length_take; lia).
  unfold read_huffman_dictionary.
  rewrite (read_char_prefix (open_file file) ds
             (concat (wire_bytes <$> es) ++ pack_bits encoded_text)
             eq_refl eq_refl).
  change (buf (open_file file)) with file.
  change (gpos (open_file file) + 1)%nat with 1%nat.
  fold n.
  pose proof (read_entries_wire (take n es) (at_pos file 1) root
                (concat (wire_bytes <$> drop n es) ++ pack_bits encoded_text)
                eq_refl ltac:(by apply Forall_take)) as Hr.
  rewrite Hlen in Hr. apply Hr.
  change (drop 1 file)
    with (concat (wire_bytes <$> es) ++ pack_bits encoded_text).
  by rewrite app_assoc, <- concat_app, <- fmap_app, take_drop.
Qed.

(** Every file that the writer produced parses: the stream stays good. *)
Lemma written_header_parses dict encoded_text file root :
  write_compressed_file dict encoded_text = Ok file → root ≠ Null →
  ∃ tree p, read_huffman_dictionary (open_file file) root
            = Ok (tree, at_pos file p).
Proof.
  intros Hw Hne. rewrite (read_written_header _ _ _ root Hw).
  destruct (insert_entries_total
    (take (Z.to_nat (char_value (to_uchar (Z.of_nat (count_codes dict)))))
       (dict_entries 0 dict)) root Hne) as (tree & -> & _).
  by eexists _, _.
Qed.
End Header.

Section PlainEntries.
Context `{CharType}.

Lemma char_max_lt_256 : char_max < 256.
Proof. unfold char_max. destruct char_signed; lia. Qed.

Lemma dict_entries_plain dict : ∀ i,
  (i + length dict ≤ NUM_CHAR)%nat →
  Forall (λ code : list Z, Z.of_nat (length code) ≤ char_max) dict →
  dict_entries i dict = code_entries i dict.
Proof.
  pose proof char_max_lt_256 as Hmax.
  induction dict as [|code dict IH]; intros i Hi Hlen; [done|].
  apply Forall_cons in Hlen as [Hc Hlen]. simpl in Hi. simpl.
  rewrite IH by (done || lia). f_equal. case_bool_decide; [|done].
  unfold to_uchar, NUM_CHAR in *. rewrite !Z.mod_small by lia.
  rewrite char_value_small by lia. rewrite Nat2Z.id.
  by rewrite firstn_all.
Qed.

Lemma write_entries_total dict : ∀ i,
  Forall (λ code : list Z, Z.of_nat (length code) ≤ char_max) dict →
  ∃ bytes, write_entries i dict = Ok bytes.
Proof.
  pose proof char_max_lt_256 as Hmax.
  induction dict as [|code dict IH]; intros i Hlen; [by eexists|].
  apply Forall_cons in Hlen as [Hc Hlen]. simpl.
  destruct (IH (S i) Hlen) as [rest ->].
  assert (∃ here, (if bool_decide (code ≠ []) then write_entry i code else Ok [])
                  = Ok here) as [here ->]; [|by eexists].
  case_bool_decide; [|by eexists]. unfold write_entry.
  unfold to_uchar. rewrite (Z.mod_small (Z.of_nat (length code))) by lia.
  rewrite char_value_small by lia.
  rewrite bool_decide_eq_false_2 by lia. by eexists.
Qed.
End PlainEntries.

Section HeaderRoundTrip.
Context `{CharType}.

Lemma header_round_trip dict encoded_text root :
  root ≠ Null → (length dict ≤ NUM_CHAR)%nat →
  Forall (λ code : list Z, Z.of_nat (length code) ≤ char_max) dict →
  Z.of_nat (count_codes dict) ≤ char_max →
  let es := code_entries 0 dict in
  let file := [Z.of_nat (count_codes dict)] ++ concat (wire_bytes <$> es)
              ++ pack_bits encoded_text in
  write_compressed_file dict encoded_text = Ok file ∧
  ∃ tree, insert_entries es root = Ok tree ∧
    read_huffman_dictionary (open_file file) root
    = Ok (tree, at_pos file (1 + length (concat (wire_bytes <$> es)))).
Proof.
  intros Hroot Hdict Hlen Hcount es file.
  pose proof char_max_lt_256 as Hmax.
  destruct (write_entries_total dict 0 Hlen) as [bytes Hw].
  destruct (write_entries_wire _ _ _ Hw) as [-> _].
  rewrite dict_entries_plain in Hw by (done || lia). fold es in Hw.
  assert (Hds : to_uchar (Z.of_nat (count_codes dict)) = Z.of_nat (count_codes dict)).
  { unfold to_uchar. apply Z.mod_small. lia. }
  assert (Hfile : write_compressed_file dict encoded_text = Ok file).
  { unfold write_compressed_file. by rewrite Hw, bind_Ok_l, Hds. }
  split; [done|].
  destruct (insert_entries_total es root Hroot) as (tree & Htree & _).
  exists tree. split; [done|].
  rewrite (read_written_header _ _ _ root Hfile).
  rewrite Hds, char_value_small by lia. rewrite Nat2Z.id.
  rewrite dict_entries_plain by (done || lia). fold es.
  assert (Hall : take (count_codes dict) es = es).
  { apply take_ge. unfold es.
    rewrite <- (dict_entries_plain dict 0) by (done || lia).
    by rewrite dict_entries_length. }
  by rewrite Hall, Htree.
Qed.
End HeaderRoundTrip.

(** ** Where decompress_file sends the decoder *)

Lemma read_char_buf s : buf (read_char s).2 = buf s.
Proof.
  unfold read_char. pose proof (stream_read_buf 1 s).
  by destruct (stream_read 1 s).
Qed.

Section Locate.
Context `{CharType}.

Lemma read_entry_buf s root root' s' :
  read_entry s root = Ok (root', s') → buf s' = buf s.
Proof.
  unfold read_entry. pose proof (read_char_buf s) as H1.
  destruct (read_char s) as [character s1]. simpl in H1.
  pose proof (read_char_buf s1) as H2.
  destruct (read_char s1) as [code_length s2]. simpl in H2.
  destruct character as [character|]; [|done].
  destruct code_length as [code_length|]; [|done].
  case_bool_decide; [done|].
  pose proof (stream_read_buf (Z.to_nat (char_value code_length)) s2) as H3.
  destruct (stream_read _ s2) as [got s3]. simpl in H3.
  intros (r & _ & [= _ <-])%bind_Ok. congruence.
Qed.

Lemma read_entries_buf n : ∀ s root root' s',
  read_entries n s root = Ok (root', s') → buf s' = buf s.
Proof.
  induction n as [|n IH]; intros s root root' s' Hr; simpl in Hr.
  - by injection Hr as _ <-.
  - apply bind_Ok in Hr as ([root1 s1] & Hentry & Hrest).
    rewrite (IH _ _ _ _ Hrest). by eapply read_entry_buf.
Qed.

Lemma read_huffman_dictionary_buf file root root' s' :
  read_huffman_dictionary (open_file file) root = Ok (root', s') →
  buf s' = file ∧ file ≠ [].
Proof.
  unfold read_huffman_dictionary.
  pose proof (read_char_buf (open_file file)) as H1.
  destruct (read_char (open_file file)) as [dict_size s1] eqn:Hread.
  simpl in H1. destruct dict_size as [dict_size|]; [|done].
  intros Hr. split; [rewrite (read_entries_buf _ _ _ _ _ Hr); done|].
  intros ->. by vm_compute in Hread.
Qed.

Lemma locate_payload_good file p :
  file ≠ [] →
  locate_payload (at_pos file p)
  = (at_pos file (length file - 1), to_int (Z.of_nat (length file))).
Proof.
  intros Hne. unfold locate_payload, seekg_end, tellg, seekg_cur. simpl.
  assert (0 < length file)%nat by (destruct file; [done | simpl; lia]).
  rewrite bool_decide_eq_true_2 by lia.
  unfold at_pos. do 2 f_equal. lia.
Qed.

Lemma drop_last_byte (file : list Z) x :
  last file = Some x → drop (length file - 1) file = [x].
Proof.
  intros Hlast. apply last_Some in Hlast as [pre ->].
  rewrite length_app. simpl.
  replace (length pre + 1 - 1)%nat with (length pre) by lia.
  by rewrite drop_app_length.
Qed.

Lemma decode_data_last_byte file x root encoded_length :
  last file = Some x →
  decode_data (at_pos file (length file - 1)) root encoded_length
  = decode_last_byte x root encoded_length.
Proof.
  intros Hlast. unfold decode_data, decode_last_byte.
  change (failbit (at_pos ?b ?p)) with false.
  change (buf (at_pos ?b ?p)) with b. change (gpos (at_pos ?b ?p)) with p.
  rewrite (drop_last_byte _ _ Hlast). cbn [decode_bytes].
  by destruct (decode_bits 8 x root root [] 0 encoded_length) as [[[? ?] ?]|].
Qed.
End Locate.

(** * The claims settled on concrete inputs *)

Section ConcreteInputs.
Context `{HeapAlgorithms} `{CharType}.

(** The tree of "abb": frequencies 1 and 2 leave the queue no choice. *)
Lemma build_abb :
  build_huffman_tree (fill_frequency [97; 98; 98] init_frequency)
  = Ok (MkNode 43 3 (MkNode 97 1 Null Null) (MkNode 98 2 Null Null)).
Proof.
  unfold build_huffman_tree. rewrite push_leaves_fold.
  replace (leaf_list _) with [MkNode 97 1 Null Null; MkNode 98 2 Null Null]
    by (vm_compute; reflexivity).
  simpl foldl. rewrite pq_push_empty, pq_push_second by (simpl; lia).
  unfold pq_size. simpl length.
  rewrite merge_loop_step by (simpl; lia).
  unfold merge_step.
  rewrite pq_top_cons, bind_Ok_l, pq_pop_pair by (apply is_heap_pair; simpl; lia).
  rewrite bind_Ok_l, pq_top_cons, bind_Ok_l, pq_pop_singleton, bind_Ok_l.
  change (int_add _ _) with (Ok 3).
  rewrite !bind_Ok_l, pq_push_empty, merge_loop_done by (simpl; lia).
  reflexivity.
Qed.

(** The tree of "aaaa" is the single leaf. *)
Lemma build_aaaa :
  build_huffman_tree (fill_frequency [97; 97; 97; 97] init_frequency)
  = Ok (MkNode 97 4 Null Null).
Proof.
  unfold build_huffman_tree. rewrite push_leaves_fold.
  replace (leaf_list _) with [MkNode 97 4 Null Null]
    by (vm_compute; reflexivity).
  simpl foldl. rewrite pq_push_empty.
  rewrite merge_loop_done by (simpl; lia). reflexivity.
Qed.

(** C1 (round trip), at the input "abb".  Whatever the priority queue
    and the signedness of char, "abb" compresses to the eight bytes
    02 'a' 01 '0' 'b' 01 '1' 60 and that file decompresses to
    "abbaaaaa": the decoder takes the file size, 8, as the number of
    bits and so decodes the five padding bits of the payload byte as
    five more 'a'.  The round trip does not give back "abb". *)
Theorem roundtrip_abb_decodes_padding :
  compress_file [97; 98; 98] = Ok [2; 97; 1; 48; 98; 1; 49; 96] ∧
  decompress_file [2; 97; 1; 48; 98; 1; 49; 96]
    = Ok [97; 98; 98; 97; 97; 97; 97; 97] ∧
  compress_file [97; 98; 98] ≫= decompress_file ≠ Ok [97; 98; 98].
Proof.
  assert (Hc : compress_file [97; 98; 98] = Ok [2; 97; 1; 48; 98; 1; 49; 96]).
  { unfold compress_file. rewrite build_abb, bind_Ok_l.
    destruct H0 as [[|]]; vm_compute; reflexivity. }
  assert (Hd : decompress_file [2; 97; 1; 48; 98; 1; 49; 96]
               = Ok [97; 98; 98; 97; 97; 97; 97; 97]).
  { destruct H0 as [[|]]; vm_compute; reflexivity. }
  split; [exact Hc|]. split; [exact Hd|].
  rewrite Hc, bind_Ok_l, Hd. discriminate.
Qed.

(** C3 (empty input).  The frequency table of the empty text is all
    zero, no leaf enters the queue, and [build_huffman_tree] then takes
    the top of the empty queue: [compress_file] on the empty text ends
    in that fault instead of short-circuiting. *)
Theorem empty_input_takes_top_of_empty_queue :
  fill_frequency [] init_frequency = replicate NUM_CHAR 0 ∧
  push_leaves (fill_frequency [] init_frequency) = [] ∧
  build_huffman_tree (fill_frequency [] init_frequency) = Fault EmptyQueueTop ∧
  compress_file [] = Fault EmptyQueueTop.
Proof.
  assert (Hp : push_leaves (fill_frequency [] init_frequency) = []).
  { rewrite push_leaves_fold.
    replace (leaf_list _) with (@nil Node) by (vm_compute; reflexivity).
    reflexivity. }
  assert (Hb : build_huffman_tree (fill_frequency [] init_frequency)
               = Fault EmptyQueueTop).
  { unfold build_huffman_tree. rewrite Hp. reflexivity. }
  split; [reflexivity|]. split; [exact Hp|]. split; [exact Hb|].
  unfold compress_file. rewrite Hb. reflexivity.
Qed.

(** C4 (one distinct byte), at the input "aaaa".  The tree is the single
    leaf, whose code is the empty string: the dictionary has no
    non-empty code, the file is the single byte 00 (a count of zero, no
    entry, no payload), and decompressing that file dereferences the
    null child of the bare root. *)
Theorem single_symbol_aaaa_gets_empty_code :
  build_huffman_tree (fill_frequency [97; 97; 97; 97] init_frequency)
    = Ok (MkNode 97 4 Null Null) ∧
  generate_dictionary (MkNode 97 4 Null Null) [] empty_dict = Ok empty_dict ∧
  empty_dict !!! 97%nat = @nil Z ∧
  count_codes empty_dict = 0%nat ∧
  compress_file [97; 97; 97; 97] = Ok [0] ∧
  decompress_file [0] = Fault NullDereference.
Proof.
  split; [exact build_aaaa|].
  split; [reflexivity|]. split; [reflexivity|]. split; [reflexivity|].
  split.
  - unfold compress_file. rewrite build_aaaa, bind_Ok_l.
    destruct H0 as [[|]]; vm_compute; reflexivity.
  - destruct H0 as [[|]]; vm_compute; reflexivity.
Qed.
End ConcreteInputs.

(** * The claims on the tree and the dictionary *)

(** C9 (shape of the built tree).  Whenever [build_huffman_tree] returns
    a tree, every node of it has no child or two children, never one, and
    a node with children carries the sum of the frequencies of its two
    children.  It does return a tree for every table of 256 counts that
    has a non-zero slot and whose total fits an int; for larger totals
    the sum computed in an int is undefined and the model faults. *)
Theorem built_tree_nodes_ok `{HeapAlgorithms} (frequency : list Z) :
  (∀ tree, build_huffman_tree frequency = Ok tree →
     ∀ n, n ∈ nodes tree → node_ok n) ∧
  (length frequency = NUM_CHAR → Forall (λ x, 0 ≤ x) frequency →
   sumz frequency ≤ INT_MAX → Exists (λ x, x > 0) frequency →
   ∃ tree, build_huffman_tree frequency = Ok tree).
Proof.
  split.
  - intros tree Hbuild. apply Forall_forall, full_tree_nodes.
    by eapply build_huffman_tree_full.
  - apply build_huffman_tree_total.
Qed.

Lemma built_tree_nodes_ok_witness :
  ∃ tree,
    build_huffman_tree (H:=sorting_heap)
      (fill_frequency [97; 98; 114; 97; 99; 97; 100; 97; 98; 114; 97]
         init_frequency) = Ok tree ∧
    ∀ n, n ∈ nodes tree → node_ok n.
Proof.
  eexists. split; [vm_compute; reflexivity|].
  apply (proj1 (built_tree_nodes_ok (H:=sorting_heap)
    (fill_frequency [97; 98; 114; 97; 99; 97; 100; 97; 98; 114; 97]
       init_frequency))).
  vm_compute; reflexivity.
Defined.

(** C7 (prefix-free dictionary).  For every non-empty text, the
    dictionary that [generate_dictionary] fills from the tree of the text
    is prefix-free: no non-empty code of a symbol is a prefix of the code
    of another symbol.  The tree exists whenever the text has at most
    [INT_MAX] bytes. *)
Theorem dictionary_is_prefix_free `{HeapAlgorithms} (text : list Z) :
  text ≠ [] →
  (∀ tree, build_huffman_tree (fill_frequency text init_frequency) = Ok tree →
     ∃ dict, generate_dictionary tree [] empty_dict = Ok dict ∧
             prefix_free dict) ∧
  (Z.of_nat (length text) ≤ INT_MAX →
     ∃ tree, build_huffman_tree (fill_frequency text init_frequency) = Ok tree).
Proof.
  intros Hne. split.
  - intros tree Hbuild.
    apply build_huffman_tree_full, full_tree_not_null in Hbuild.
    destruct (generate_dictionary_total tree [] empty_dict Hbuild) as [dict Hd].
    exists dict. split; [done|]. by eapply generate_dictionary_prefix_free.
  - by apply build_huffman_tree_text_total.
Qed.

Lemma dictionary_is_prefix_free_witness :
  ∃ dict,
    generate_dictionary
      (MkNode 43 11 (MkNode 97 5 Null Null)
         (MkNode 43 6 (MkNode 98 2 Null Null)
            (MkNode 43 4
               (MkNode 43 2 (MkNode 99 1 Null Null) (MkNode 100 1 Null Null))
               (MkNode 114 2 Null Null))))
      [] empty_dict = Ok dict ∧
    prefix_free dict.
Proof.
  apply (proj1 (dictionary_is_prefix_free (H:=sorting_heap)
    [97; 98; 114; 97; 99; 97; 100; 97; 98; 114; 97] ltac:(discriminate))).
  vm_compute; reflexivity.
Defined.

(** * The claim on the bit packer *)

(** C8 (MSB-first packing).  The encoded text is the concatenation of the
    codes of the bytes of the text in input order, and the file ends with
    its packing.  The packing has one byte per started group of eight
    characters; character [k] of the encoded text decides bit [7 - k mod 8]
    of byte [k / 8], which is set exactly when the character is ['1'].  So
    the first character lands in bit 7 of the first payload byte, and the
    positions of the last byte beyond the end of the encoded text, where
    there is no character, are zero. *)
Theorem pack_bits_msb_first `{CharType} (text : list Z) (dict : list (list Z)) :
  let encoded := encode_text text dict in
  let payload := pack_bits encoded in
  encoded = concat ((λ ch, dict !!! Z.to_nat (to_uchar ch)) <$> text) ∧
  (∀ file, write_compressed_file dict encoded = Ok file →
     ∃ header, file = header ++ payload) ∧
  length payload = ((length encoded + 7) / 8)%nat ∧
  Forall (λ b, 0 ≤ b < 256) payload ∧
  ∀ k : nat, (k < 8 * length payload)%nat →
    Z.testbit (payload !!! (k / 8)%nat) (7 - Z.of_nat (k mod 8))
    = is_one (encoded !! k).
Proof.
  intros encoded payload. split; [apply encode_text_concat|]. split.
  { intros file (entries & _ & [= <-])%bind_Ok.
    exists ([to_uchar (Z.of_nat (count_codes dict))] ++ entries).
    by rewrite <- app_assoc. }
  destruct (pack_loop_inv encoded)
    as (out & buffer & Hst & Hlen & Hbuf & Hout & Hbits & Hcur).
  set (n := length encoded) in *.
  assert (Hpay : payload = if bool_decide (Z.of_nat (n mod 8) > 0)
                           then out ++ [buffer] else out).
  { unfold payload, pack_bits. by rewrite Hst. }
  rewrite Hpay. case_bool_decide as Hrest.
  - split; [rewrite length_app, Hlen; cbn [length]; div_lia|].
    split; [apply Forall_app; split; [done | by constructor]|].
    intros k Hk. rewrite length_app, Hlen in Hk. cbn [length] in Hk.
    destruct (decide (k < 8 * (n / 8))%nat) as [Hlt|Hge].
    + rewrite lookup_total_app_l by (rewrite Hlen; div_lia). by apply Hbits.
    + rewrite lookup_total_app_r by (rewrite Hlen; div_lia).
      replace (k / 8 - length out)%nat with 0%nat by (rewrite Hlen; div_lia).
      change ([buffer] !!! 0%nat) with buffer.
      rewrite (Hcur (k mod 8)%nat) by div_lia. f_equal. f_equal. div_lia.
  - split; [rewrite Hlen; div_lia|]. split; [done|].
    intros k Hk. rewrite Hlen in Hk. by apply Hbits.
Qed.

(** * The claims on the reader and on decompress_file *)

Lemma decompress_after_header `{CharType} (file : list Z) root infile :
  read_huffman_dictionary (open_file file) (make_node chr_plus 0)
    = Ok (root, infile) →
  failbit infile = false →
  ∃ x,
    last file = Some x ∧
    locate_payload infile
      = (at_pos file (length file - 1), to_int (Z.of_nat (length file))) ∧
    decompress_file file
      = decode_last_byte x root (to_int (Z.of_nat (length file))).
Proof.
  intros Hread Hgood.
  destruct (read_huffman_dictionary_buf _ _ _ _ Hread) as [Hbuf Hne].
  destruct (last file) as [x|] eqn:Hlast; [|by apply last_None in Hlast].
  exists x.
  assert (Hloc : locate_payload infile
            = (at_pos file (length file - 1), to_int (Z.of_nat (length file)))).
  { destruct infile as [b p fl]. simpl in Hbuf, Hgood. subst b fl.
    by apply locate_payload_good. }
  split; [reflexivity|]. split; [exact Hloc|].
  unfold decompress_file. rewrite Hread, bind_Ok_l, Hloc.
  by apply decode_data_last_byte.
Qed.

Lemma compress_file_Ok `{HeapAlgorithms} `{CharType} text file :
  compress_file text = Ok file →
  ∃ tree dict,
    build_huffman_tree (fill_frequency text init_frequency) = Ok tree ∧
    generate_dictionary tree [] empty_dict = Ok dict ∧
    write_compressed_file dict (encode_text text dict) = Ok file.
Proof.
  unfold compress_file.
  destruct (build_huffman_tree (fill_frequency text init_frequency))
    as [tree|] eqn:Hb; [|discriminate].
  rewrite bind_Ok_l.
  destruct (generate_dictionary tree [] empty_dict) as [dict|] eqn:Hg;
    [|discriminate].
  rewrite bind_Ok_l. intros Hw. by exists tree, dict.
Qed.

Lemma compressed_file_parses `{HeapAlgorithms} `{CharType} text file :
  compress_file text = Ok file →
  ∃ root p,
    read_huffman_dictionary (open_file file) (make_node chr_plus 0)
      = Ok (root, at_pos file p).
Proof.
  intros (tree & dict & _ & _ & Hw)%compress_file_Ok.
  eapply written_header_parses; [exact Hw | discriminate].
Qed.

(** C2 (where the decoder is sent).  Whenever the dictionary of a file was
    read with the stream still good, [decompress_file] moves the get
    position to the last byte of the file and hands the size of the file
    in bytes, converted to int, to [decode_data] as the number of bits.
    The decoder then has that one byte to read: the text is what
    [decode_bits] makes of the last byte, whatever the length of the
    payload.  Every file that [compress_file] produces is such a file. *)
Theorem decompress_decodes_last_byte `{CharType} (file : list Z) :
  (∀ root infile,
     read_huffman_dictionary (open_file file) (make_node chr_plus 0)
       = Ok (root, infile) →
     failbit infile = false →
     ∃ x encoded_length,
       last file = Some x ∧
       encoded_length = to_int (Z.of_nat (length file)) ∧
       (Z.of_nat (length file) ≤ INT_MAX →
        encoded_length = Z.of_nat (length file)) ∧
       locate_payload infile = (at_pos file (length file - 1), encoded_length) ∧
       drop (length file - 1) file = [x] ∧
       decode_data (at_pos file (length file - 1)) root encoded_length
         = decode_last_byte x root encoded_length ∧
       decompress_file file = decode_last_byte x root encoded_length) ∧
  (∀ (heap : HeapAlgorithms) text,
     compress_file text = Ok file →
     ∃ root p,
       read_huffman_dictionary (open_file file) (make_node chr_plus 0)
         = Ok (root, at_pos file p)).
Proof.
  split.
  - intros root infile Hread Hgood.
    destruct (decompress_after_header file root infile Hread Hgood)
      as (x & Hlast & Hloc & Hdec).
    exists x, (to_int (Z.of_nat (length file))).
    split; [exact Hlast|]. split; [reflexivity|].
    split; [intros; apply to_int_id; unfold INT_MIN; lia|].
    split; [exact Hloc|]. split; [by apply drop_last_byte|].
    split; [by apply decode_data_last_byte | exact Hdec].
  - intros heap text. apply compressed_file_parses.
Qed.

Lemma decompress_decodes_last_byte_witness :
  @decompress_file signed_char [2; 97; 1; 48; 98; 1; 49; 96]
  = decode_last_byte 96
      (MkNode 43 0 (MkNode 97 0 Null Null) (MkNode 98 0 Null Null)) 8.
Proof.
  destruct (proj1 (@decompress_decodes_last_byte signed_char
              [2; 97; 1; 48; 98; 1; 49; 96])
              (MkNode 43 0 (MkNode 97 0 Null Null) (MkNode 98 0 Null Null))
              (at_pos [2; 97; 1; 48; 98; 1; 49; 96] 7)
              ltac:(vm_compute; reflexivity) ltac:(reflexivity))
    as (x & el & Hx & Hel & _ & _ & _ & _ & Hd).
  injection Hx as <-. rewrite Hd, Hel. reflexivity.
Defined.

(** C5 (malformed header), refuted as stated: the file [conflict_file]
    declares two entries, 'a' with the code "0" and 'b' with the code
    "01", so one code is a prefix of the other.  The reader reports
    nothing: it returns a tree in which the node of 'a' has become an
    inner node, and decompression ends normally with the text "bbbb". *)
Lemma prefix_conflict_is_accepted :
  [48] `prefix_of` [48; 49] ∧
  @read_huffman_dictionary signed_char (open_file conflict_file)
      (make_node chr_plus 0)
    = Ok (MkNode 43 0 (MkNode 97 0 Null (MkNode 98 0 Null Null)) Null,
          at_pos conflict_file 8) ∧
  @decompress_file signed_char conflict_file = Ok [98; 98; 98; 98] ∧
  @decompress_file unsigned_char conflict_file = Ok [98; 98; 98; 98].
Proof.
  split; [by exists [49]|]. repeat split; vm_compute; reflexivity.
Qed.

Lemma insert_entries_last es : ∀ root tree sym len chars,
  root ≠ Null → insert_entries (es ++ [(sym, len, chars)]) root = Ok tree →
  walk tree chars ≠ Null ∧ character_of (walk tree chars) = sym.
Proof.
  induction es as [|[[s l] c] es IH]; intros root tree sym len chars Hroot Htree;
    cbn [insert_entries app] in Htree.
  - apply bind_Ok in Htree as (t & Hins & [= <-]).
    by eapply insert_code_walk.
  - apply bind_Ok in Htree as (t & Hins & Hrest).
    destruct (insert_code_total c s root Hroot) as (t' & Ht' & Hne').
    rewrite Ht' in Hins. injection Hins as <-. by eapply IH.
Qed.

(** C5, as the code behaves: [read_huffman_dictionary] does not validate
    the header.  For every header whose announced entries lie completely
    in the file, with the count and the lengths within the range of char,
    it returns a tree and leaves the stream good: the tree that results
    from inserting the entries in file order, each along its code from
    the root, with the symbol stored in the node where the code ends.
    Nothing is required of the codes, so a code that is a prefix of
    another, or that repeats, is accepted like any other; the entry read
    last always finds its symbol at the end of its code. *)
Theorem header_is_read_without_validation `{CharType}
    (es : list (Z * Z * list Z)) (rest : list Z) (root : Node) :
  root ≠ Null → Forall wire_ok es → Z.of_nat (length es) ≤ char_max →
  let file := [Z.of_nat (length es)] ++ concat (wire_bytes <$> es) ++ rest in
  ∃ tree,
    read_huffman_dictionary (open_file file) root
      = Ok (tree, at_pos file (1 + length (concat (wire_bytes <$> es)))) ∧
    insert_entries es root = Ok tree ∧ tree ≠ Null ∧
    ∀ sym len chars, last es = Some (sym, len, chars) →
      walk tree chars ≠ Null ∧ character_of (walk tree chars) = sym.
Proof.
  intros Hroot Hok Hcount file.
  destruct (insert_entries_total es root Hroot) as (tree & Htree & Hne).
  exists tree. split; [|split; [exact Htree|split; [exact Hne|]]].
  - unfold read_huffman_dictionary.
    rewrite (read_char_prefix (open_file file) (Z.of_nat (length es))
               (concat (wire_bytes <$> es) ++ rest) eq_refl eq_refl).
    change (buf (open_file file)) with file.
    change (gpos (open_file file) + 1)%nat with 1%nat.
    rewrite char_value_small by lia. rewrite Nat2Z.id.
    rewrite (read_entries_wire es (at_pos file 1) root rest eq_refl Hok eq_refl).
    by rewrite Htree.
  - intros sym len chars Hlast. apply last_Some in Hlast as [es' ->].
    exact (insert_entries_last es' root tree sym len chars Hroot Htree).
Qed.

Lemma header_is_read_without_validation_witness :
  ∃ tree,
    @read_huffman_dictionary signed_char (open_file conflict_file)
        (make_node chr_plus 0)
      = Ok (tree, at_pos conflict_file 8) ∧
    walk tree [48; 49] ≠ Null ∧ character_of (walk tree [48; 49]) = 98.
Proof.
  destruct (@header_is_read_without_validation signed_char
              [(97, 1, [48]); (98, 2, [48; 49])] [85] (make_node chr_plus 0))
    as (tree & Hread & _ & _ & Hlast).
  - discriminate.
  - repeat constructor; vm_compute; congruence.
  - vm_compute. congruence.
  - exists tree. split; [exact Hread|]. exact (Hlast 98 2 [48; 49] eq_refl).
Defined.

(** C10 (codes as text in the header).  For a dictionary whose code
    lengths and whose number of codes fit a char, the writer emits, after
    the count byte, for every non-empty slot the slot index, the length
    of the code and then the characters of the code, one byte each; the
    payload follows.  The reader, on that file, performs exactly the
    insertions of these entries in order and stops in front of the
    payload.  An insertion takes one step per byte of the code: with
    ['0'] to the left, with any other byte to the right, which is how
    [walk] steps; the node where the code ends holds the symbol. *)
Theorem header_codes_one_byte_per_bit `{CharType}
    (dict : list (list Z)) (encoded_text : list Z) (root : Node) :
  root ≠ Null → (length dict ≤ NUM_CHAR)%nat →
  Forall (λ code : list Z, Z.of_nat (length code) ≤ char_max) dict →
  Z.of_nat (count_codes dict) ≤ char_max →
  let es := code_entries 0 dict in
  let file := [Z.of_nat (count_codes dict)] ++ concat (wire_bytes <$> es)
              ++ pack_bits encoded_text in
  (∀ (i : nat) code, dict !! i = Some code → code ≠ [] →
     write_entry i code = Ok ([Z.of_nat i; Z.of_nat (length code)] ++ code)) ∧
  write_compressed_file dict encoded_text = Ok file ∧
  (∃ tree, insert_entries es root = Ok tree ∧
     read_huffman_dictionary (open_file file) root
     = Ok (tree, at_pos file (1 + length (concat (wire_bytes <$> es))))) ∧
  (∀ code sym current t, insert_code code sym current = Ok t →
     walk t code ≠ Null ∧ character_of (walk t code) = sym).
Proof.
  intros Hroot Hdict Hlen Hcount es file.
  pose proof char_max_lt_256 as Hmax.
  destruct (header_round_trip dict encoded_text root Hroot Hdict Hlen Hcount)
    as [Hw Hr].
  split; [|split; [exact Hw|split; [exact Hr|]]].
  - intros i code Hi Hcode. unfold write_entry.
    assert (Hc : Z.of_nat (length code) ≤ char_max).
    { exact (proj1 (Forall_lookup _ _) Hlen i code Hi). }
    apply lookup_lt_Some in Hi. unfold NUM_CHAR in Hdict.
    unfold to_uchar. rewrite !Z.mod_small by lia.
    rewrite char_value_small by lia.
    rewrite bool_decide_eq_false_2 by lia.
    by rewrite Nat2Z.id, firstn_all.
  - intros code sym current t. apply insert_code_walk.
Qed.

Lemma header_codes_one_byte_per_bit_witness :
  @write_compressed_file signed_char
      (<[97%nat := [48]]> (<[98%nat := [49]]> empty_dict)) [48; 49; 49]
    = Ok [2; 97; 1; 48; 98; 1; 49; 96] ∧
  ∃ tree,
    @read_huffman_dictionary signed_char
        (open_file [2; 97; 1; 48; 98; 1; 49; 96]) (make_node chr_plus 0)
      = Ok (tree, at_pos [2; 97; 1; 48; 98; 1; 49; 96] 7).
Proof.
  destruct (@header_codes_one_byte_per_bit signed_char
              (<[97%nat := [48]]> (<[98%nat := [49]]> empty_dict))
              [48; 49; 49] (make_node chr_plus 0))
    as (_ & Hw & (tree & _ & Hr) & _).
  - discriminate.
  - refine (bool_decide_unpack _ _). vm_compute. exact I.
  - refine (bool_decide_unpack _ _). vm_compute. exact I.
  - refine (bool_decide_unpack _ _). vm_compute. exact I.
  - split; [exact Hw|]. exists tree. exact Hr.
Defined.

(** Where char is signed, a count byte of 128 or more is a negative
    [dict_size]: the entry loop does not run. *)
Lemma signed_count_is_lost (file : list Z) (count : Z) (rest : list Z) root :
  file = count :: rest → 128 ≤ count < 256 →
  @read_huffman_dictionary signed_char (open_file file) root
  = Ok (root, at_pos file 1).
Proof.
  intros -> Hcount. unfold read_huffman_dictionary.
  rewrite (read_char_prefix (open_file (count :: rest)) count rest
             eq_refl eq_refl).
  unfold char_value. cbn [char_signed signed_char andb].
  rewrite bool_decide_eq_true_2 by lia.
  replace (Z.to_nat (count - 256)) with 0%nat by lia. reflexivity.
Qed.

(** C6 (count byte), at a text with 128 distinct bytes.  The compressor
    writes the count 128 in the leading byte.  Where char is signed, the
    reader's [char dict_size] holds -128, its loop does not run, and the
    dictionary is left unread: the tree stays the bare root and the
    stream stays behind the count byte.  Where char is unsigned, the same
    file is read to the end of its 128 entries. *)
Theorem count_128_is_read_as_negative :
  ∃ file,
    @compress_file sorting_heap signed_char text_128 = Ok file ∧
    @compress_file sorting_heap unsigned_char text_128 = Ok file ∧
    head file = Some 128 ∧
    @char_value signed_char 128 = -128 ∧
    @read_huffman_dictionary signed_char (open_file file) (make_node chr_plus 0)
      = Ok (make_node chr_plus 0, at_pos file 1) ∧
    ∃ tree,
      @read_huffman_dictionary unsigned_char (open_file file)
          (make_node chr_plus 0)
        = Ok (tree, at_pos file 1153).
Proof.
  eexists. split; [vm_compute; reflexivity|].
  split; [vm_compute; reflexivity|].
  split; [reflexivity|]. split; [reflexivity|].
  split; [by eapply signed_count_is_lost|].
  eexists. vm_compute. reflexivity.
Qed.

(** * Further properties of the code *)

(** ** fill_frequency *)

Lemma to_uint_range z : 0 ≤ to_uint z < 2 ^ 32.
Proof. unfold to_uint. apply Z.mod_pos_bound. lia. Qed.

Lemma to_uint_idemp_add a b : to_uint (to_uint a + b) = to_uint (a + b).
Proof. unfold to_uint. apply Zplus_mod_idemp_l. Qed.

Lemma occurrences_cons i ch text :
  occurrences i (ch :: text)
  = ((if decide (Z.to_nat (to_uchar ch) = i) then 1 else 0)
     + occurrences i text)%nat.
Proof.
  unfold occurrences. rewrite filter_cons. by case_decide.
Qed.

Lemma fill_frequency_cons ch text frequency :
  fill_frequency (ch :: text) frequency
  = fill_frequency text
      (<[Z.to_nat (to_uchar ch) :=
           to_uint (frequency !!! Z.to_nat (to_uchar ch) + 1)]> frequency).
Proof. reflexivity. Qed.

Lemma fill_frequency_length text : ∀ frequency,
  length (fill_frequency text frequency) = length frequency.
Proof.
  induction text as [|ch text IH]; intros fr; [done|].
  by rewrite fill_frequency_cons, IH, length_insert.
Qed.

Lemma slot_index_lt ch : (Z.to_nat (to_uchar ch) < NUM_CHAR)%nat.
Proof. pose proof (to_uchar_range ch). unfold NUM_CHAR. lia. Qed.

(** Each slot advances by the number of occurrences, modulo 2^32. *)
Lemma fill_frequency_lookup text : ∀ frequency (i : nat),
  length frequency = NUM_CHAR →
  to_uint (fill_frequency text frequency !!! i)
  = to_uint (frequency !!! i + Z.of_nat (occurrences i text)).
Proof.
  induction text as [|ch text IH]; intros fr i Hlen.
  - unfold occurrences. simpl. by rewrite Z.add_0_r.
  - rewrite fill_frequency_cons, IH, occurrences_cons
      by (by rewrite length_insert).
    pose proof (slot_index_lt ch) as Hj.
    set (j := Z.to_nat (to_uchar ch)) in *.
    destruct (decide (j = i)) as [<-|Hne].
    + rewrite list_lookup_total_insert_eq by lia.
      rewrite to_uint_idemp_add. f_equal. lia.
    + rewrite list_lookup_total_insert_ne by done. f_equal.
Qed.

Lemma fill_frequency_in_range text : ∀ frequency,
  Forall (λ x, 0 ≤ x < 2 ^ 32) frequency →
  Forall (λ x, 0 ≤ x < 2 ^ 32) (fill_frequency text frequency).
Proof.
  induction text as [|ch text IH]; intros fr Hfr; [done|].
  rewrite fill_frequency_cons. apply IH.
  destruct (decide (Z.to_nat (to_uchar ch) < length fr)%nat).
  - apply Forall_insert; [done | apply to_uint_range].
  - by rewrite list_insert_ge by lia.
Qed.

Lemma fill_frequency_slot (text : list Z) (i : nat) :
  (i < NUM_CHAR)%nat →
  fill_frequency text init_frequency !!! i
  = to_uint (Z.of_nat (occurrences i text)).
Proof.
  intros Hi. destruct init_frequency_facts as (Hlen & _ & _).
  pose proof (fill_frequency_lookup text init_frequency i Hlen) as Hlook.
  assert (Hin : 0 ≤ fill_frequency text init_frequency !!! i < 2 ^ 32).
  { assert (Hall : Forall (λ x, 0 ≤ x < 2 ^ 32)
                     (fill_frequency text init_frequency)).
    { apply fill_frequency_in_range. unfold init_frequency.
      apply Forall_replicate. lia. }
    apply (proj1 (Forall_forall _ _) Hall).
    apply list_elem_of_lookup_total_2.
    by rewrite fill_frequency_length, Hlen. }
  unfold init_frequency in Hlook at 2.
  rewrite lookup_total_replicate_2 in Hlook by done.
  rewrite Z.add_0_l in Hlook. rewrite <- Hlook.
  unfold to_uint. symmetry. by apply Z.mod_small.
Qed.

(** X1.  The table that [compress_file] builds holds, in every slot, the number
    of occurrences of that byte in the text, reduced modulo 2^32: a slot
    wraps around after 2^32 occurrences. *)
Theorem fill_frequency_counts (text : list Z) (i : nat) :
  (i < NUM_CHAR)%nat →
  0 ≤ fill_frequency text init_frequency !!! i < 2 ^ 32 ∧
  fill_frequency text init_frequency !!! i
  = Z.of_nat (occurrences i text) mod 2 ^ 32.
Proof.
  intros Hi. rewrite (fill_frequency_slot text i Hi).
  split; [apply to_uint_range | reflexivity].
Qed.

Lemma fill_frequency_counts_witness :
  fill_frequency [97; 98; 98] init_frequency !!! 98%nat = 2.
Proof.
  rewrite (proj2 (fill_frequency_counts [97; 98; 98] 98 ltac:(vm_compute; lia))).
  vm_compute. reflexivity.
Defined.

Lemma occurrences_le_length i text : (occurrences i text ≤ length text)%nat.
Proof. unfold occurrences. apply length_filter. Qed.

(** X2.  Histogram conservation: for a text of fewer than 2^32 bytes the table
    has 256 slots, each slot is exactly the number of occurrences of its
    byte (so zero for a byte that does not occur), and the slots add up
    to the length of the text. *)
Theorem histogram_conservation (text : list Z) :
  Z.of_nat (length text) < 2 ^ 32 →
  length (fill_frequency text init_frequency) = NUM_CHAR ∧
  (∀ i : nat, (i < NUM_CHAR)%nat →
     fill_frequency text init_frequency !!! i
     = Z.of_nat (occurrences i text)) ∧
  sumz (fill_frequency text init_frequency) = Z.of_nat (length text).
Proof.
  intros Hlen. destruct init_frequency_facts as (Hl0 & Hp0 & Hs0).
  destruct (fill_frequency_facts text init_frequency Hl0 Hp0) as (Hl & _ & Hs).
  { rewrite Hs0. lia. }
  split; [exact Hl|]. split; [|rewrite Hs, Hs0; lia].
  intros i Hi. rewrite fill_frequency_slot by done. unfold to_uint.
  apply Z.mod_small. pose proof (occurrences_le_length i text). lia.
Qed.

Lemma histogram_conservation_witness :
  sumz (fill_frequency [97; 98; 114; 97; 99; 97; 100; 97; 98; 114; 97]
          init_frequency) = 11 ∧
  fill_frequency [97; 98; 114; 97; 99; 97; 100; 97; 98; 114; 97]
    init_frequency !!! 97%nat = 5.
Proof.
  destruct (histogram_conservation
              [97; 98; 114; 97; 99; 97; 100; 97; 98; 114; 97])
    as (_ & Hslot & Hsum).
  - vm_compute. reflexivity.
  - split; [exact Hsum|]. rewrite Hslot by (vm_compute; lia).
    vm_compute. reflexivity.
Defined.

(** ** The greedy choice of build_huffman_tree *)

(** The front of a heap has the least frequency. *)
Lemma is_heap_front_least v : is_heap v →
  ∀ (i : nat) x c, v !! 0%nat = Some x → v !! i = Some c →
    frequency_of x ≤ frequency_of c.
Proof.
  intros Hh i. induction (lt_wf i) as [i _ IH]. intros x c Hx Hc.
  destruct (decide (i = 0%nat)) as [->|Hi].
  - rewrite Hx in Hc. injection Hc as <-. lia.
  - assert (Hlt : ((i - 1) / 2 < i)%nat).
    { apply Nat.Div0.div_lt_upper_bound. lia. }
    destruct (lookup_lt_is_Some_2 v ((i - 1) / 2)%nat) as [p Hp].
    { apply lookup_lt_Some in Hc. lia. }
    pose proof (IH _ Hlt x p Hx Hp) as Hxp.
    pose proof (Hh i p c ltac:(lia) Hp Hc) as Hcmp.
    unfold Compare in Hcmp. apply bool_decide_eq_false in Hcmp. lia.
Qed.

Lemma is_heap_cons_least x v : is_heap (x :: v) →
  ∀ y, y ∈ x :: v → frequency_of x ≤ frequency_of y.
Proof.
  intros Hh y (i & Hi)%list_elem_of_lookup.
  by eapply (is_heap_front_least _ Hh i x y).
Qed.

(** X3.  One round of the loop takes a node of least frequency, then a node of
    least frequency among the others, makes them the left and the right
    child of a new node that carries their sum, and pushes it onto what
    is left. *)
Theorem merge_step_takes_two_lowest `{HeapAlgorithms} (pq : list Node) :
  is_heap pq → (1 < length pq)%nat →
  ∃ l r rest,
    pq ≡ₚ l :: r :: rest ∧
    (∀ x, x ∈ pq → frequency_of l ≤ frequency_of x) ∧
    (∀ x, x ∈ r :: rest → frequency_of r ≤ frequency_of x) ∧
    merge_step pq =
      int_add (frequency_of l) (frequency_of r) ≫= λ sum,
        Ok (pq_push (MkNode chr_plus sum l r) rest).
Proof.
  intros Hh Hlen. destruct pq as [|x v]; [simpl in Hlen; lia|].
  destruct (pq_pop_spec x v Hh) as (v' & Hpop & Hp & Hh').
  destruct v' as [|y w].
  { apply Permutation_length in Hp. simpl in *. lia. }
  destruct (pq_pop_spec y w Hh') as (w' & Hpop' & Hp' & Hh'').
  exists x, y, w'. split; [by rewrite Hp', Hp|]. split; [|split].
  - by apply is_heap_cons_least.
  - intros z Hz. apply (is_heap_cons_least y w Hh').
    by rewrite <- Hp'.
  - unfold merge_step.
    by rewrite pq_top_cons, bind_Ok_l, Hpop, bind_Ok_l, pq_top_cons,
      bind_Ok_l, Hpop', bind_Ok_l.
Qed.

Lemma merge_step_takes_two_lowest_witness :
  ∃ l r rest,
    [MkNode 97 1 Null Null; MkNode 98 2 Null Null; MkNode 99 4 Null Null]
      ≡ₚ l :: r :: rest ∧
    frequency_of l ≤ 1 ∧ frequency_of r ≤ 2.
Proof.
  destruct (@merge_step_takes_two_lowest sorting_heap
              [MkNode 97 1 Null Null; MkNode 98 2 Null Null;
               MkNode 99 4 Null Null])
    as (l & r & rest & Hp & Hl & Hr & _).
  - apply sorted_is_heap. repeat constructor; vm_compute; congruence.
  - simpl. lia.
  - exists l, r, rest. split; [exact Hp|]. split.
    + apply (Hl (MkNode 97 1 Null Null)). repeat constructor.
    + assert (Hin : MkNode 98 2 Null Null ∈ l :: r :: rest).
      { rewrite <- Hp. repeat constructor. }
      apply elem_of_cons in Hin as [<-|Hin]; [|by apply (Hr _ Hin)].
      assert (Hin : MkNode 97 1 Null Null ∈ MkNode 98 2 Null Null :: r :: rest).
      { rewrite <- Hp. repeat constructor. }
      apply elem_of_cons in Hin as [?|Hin]; [done|].
      pose proof (Hr _ Hin). simpl in *. lia.
Defined.

(** ** The leaves and the root of the built tree *)

Lemma leaves_merge ch f l r :
  l ≠ Null → leaves (MkNode ch f l r) = leaves l ++ leaves r.
Proof. intros Hl. simpl. by rewrite (is_null_false l Hl). Qed.

Lemma used_slots_lt frequency i : i ∈ used_slots frequency → (i < NUM_CHAR)%nat.
Proof.
  unfold used_slots. intros [_ Hi%elem_of_seq]%list_elem_of_filter. lia.
Qed.

Lemma leaf_list_leaves frequency :
  leaf_list frequency ≫= leaves = Z.of_nat <$> used_slots frequency.
Proof.
  unfold leaf_list. fold (used_slots frequency).
  pose proof (used_slots_lt frequency) as Hlt.
  induction (used_slots frequency) as [|i ixs IH]; [done|].
  rewrite !fmap_cons, bind_cons, IH by (intros j Hj; apply Hlt; by right).
  simpl. f_equal. unfold to_uchar. apply Z.mod_small.
  specialize (Hlt i ltac:(by left)). unfold NUM_CHAR in Hlt. lia.
Qed.

Section BuiltTree.
Context `{HeapAlgorithms}.

(** The leaves of the built tree carry exactly the indices of the
    non-zero slots of the table, each index once. *)
Lemma built_tree_leaves (frequency : list Z) (tree : Node) :
  build_huffman_tree frequency = Ok tree →
  leaves tree ≡ₚ Z.of_nat <$> used_slots frequency.
Proof.
  unfold build_huffman_tree.
  destruct (merge_loop _ _) as [pq'|] eqn:Hloop; [|discriminate].
  rewrite bind_Ok_l. intros Htop.
  apply (merge_loop_preserves
           (λ pq, Forall full_tree pq ∧
                  pq ≫= leaves ≡ₚ Z.of_nat <$> used_slots frequency))
    in Hloop as ([_ Hleaves] & _ & Hlen & _).
  - destruct pq' as [|x [|y pq']]; [done | | simpl in Hlen; lia].
    injection Htop as <-. rewrite bind_cons, app_nil_r in Hleaves. exact Hleaves.
  - intros a b Hp [Hfull Hl]. split; [by rewrite <- Hp|].
    by rewrite <- Hp.
  - intros l r rest sum [Hfull Hl] ->%int_add_Ok.
    apply Forall_cons in Hfull as [Hfl Hfull].
    apply Forall_cons in Hfull as [Hfr Hfull].
    split; [constructor; [simpl; right; done | done]|].
    rewrite bind_cons, leaves_merge by (by apply full_tree_not_null).
    rewrite !bind_cons, app_assoc in Hl. exact Hl.
  - apply push_leaves_heap.
  - split.
    + rewrite push_leaves_perm. apply leaf_list_full.
    + rewrite push_leaves_perm. by rewrite leaf_list_leaves.
Qed.

(** The root carries the sum of the frequencies of the leaves that were
    pushed. *)
Lemma built_tree_root_frequency (frequency : list Z) (tree : Node) :
  build_huffman_tree frequency = Ok tree →
  frequency_of tree = sumz (frequency_of <$> leaf_list frequency).
Proof.
  unfold build_huffman_tree.
  destruct (merge_loop _ _) as [pq'|] eqn:Hloop; [|discriminate].
  rewrite bind_Ok_l. intros Htop.
  apply (merge_loop_preserves
           (λ pq, sumz (frequency_of <$> pq)
                  = sumz (frequency_of <$> leaf_list frequency)))
    in Hloop as (Hsum & _ & Hlen & _).
  - destruct pq' as [|x [|y pq']]; [done | | simpl in Hlen; lia].
    injection Htop as <-. rewrite <- Hsum.
    change (sumz (frequency_of <$> [x])) with (frequency_of x + 0). lia.
  - intros a b Hp <-. symmetry. apply sumz_perm. by rewrite Hp.
  - intros l r rest sum <- ->%int_add_Ok.
    rewrite !fmap_cons. change (sumz (?a :: ?b)) with (a + sumz b).
    change (sumz (?a :: ?b)) with (a + sumz b). simpl frequency_of. lia.
  - apply push_leaves_heap.
  - apply sumz_perm. by rewrite push_leaves_perm.
Qed.
End BuiltTree.

Lemma leaf_list_sum frequency :
  length frequency = NUM_CHAR →
  Forall (λ x, 0 ≤ x) frequency → sumz frequency ≤ INT_MAX →
  sumz (frequency_of <$> leaf_list frequency) = sumz frequency.
Proof.
  intros Hlen Hpos Hsum.
  assert (Hg : ∀ i : nat, 0 ≤ frequency !!! i ≤ INT_MAX).
  { intros i. destruct (decide (i < length frequency)%nat) as [Hi|Hi].
    - assert (Hin : frequency !!! i ∈ frequency).
      { by apply list_elem_of_lookup_total_2. }
      split; [by apply (proj1 (Forall_forall _ _) Hpos)|].
      pose proof (sumz_elem_le _ _ Hpos Hin). lia.
    - rewrite list_lookup_total_alt, (proj2 (lookup_ge_None _ _)) by lia.
      simpl. unfold INT_MAX. lia. }
  destruct (leaf_frequencies frequency (seq 0 NUM_CHAR) Hg) as [_ Hs].
  unfold leaf_list. rewrite Hs. by rewrite <- Hlen, lookup_total_seq_fmap.
Qed.

Lemma occurrences_pos i text :
  (0 < occurrences i text)%nat ↔ ∃ ch, ch ∈ text ∧ Z.to_nat (to_uchar ch) = i.
Proof.
  unfold occurrences. split.
  - intros Hpos.
    destruct (filter (λ ch, Z.to_nat (to_uchar ch) = i) text) as [|ch rest] eqn:Hf;
      [simpl in Hpos; lia|].
    exists ch. apply and_comm.
    apply (list_elem_of_filter (λ ch, Z.to_nat (to_uchar ch) = i)).
    rewrite Hf. by left.
  - intros (ch & Hin & Hch).
    assert (Hmem : ch ∈ filter (λ ch, Z.to_nat (to_uchar ch) = i) text).
    { by apply list_elem_of_filter. }
    destruct (filter _ text); [by apply elem_of_nil in Hmem | simpl; lia].
Qed.

Lemma used_slots_text text (c : Z) :
  Z.of_nat (length text) < 2 ^ 32 →
  c ∈ Z.of_nat <$> used_slots (fill_frequency text init_frequency)
  ↔ c ∈ to_uchar <$> text.
Proof.
  intros Hlen.
  assert (Hslot : ∀ i : nat, (i < NUM_CHAR)%nat →
            fill_frequency text init_frequency !!! i
            = Z.of_nat (occurrences i text)).
  { intros i Hi. rewrite fill_frequency_slot by done. unfold to_uint.
    apply Z.mod_small. pose proof (occurrences_le_length i text). lia. }
  rewrite !list_elem_of_fmap. split.
  - intros (i & -> & Hi). pose proof (used_slots_lt _ _ Hi) as Hlt.
    apply list_elem_of_filter in Hi as [Hpos _]. rewrite Hslot in Hpos by done.
    destruct (proj1 (occurrences_pos i text) ltac:(lia)) as (ch & Hin & Hch).
    exists ch. split; [|done]. pose proof (to_uchar_range ch). lia.
  - intros (ch & -> & Hin). pose proof (to_uchar_range ch) as Hr.
    exists (Z.to_nat (to_uchar ch)). split; [lia|].
    pose proof (slot_index_lt ch) as Hlt.
    apply list_elem_of_filter. split; [|apply elem_of_seq; lia].
    rewrite Hslot by done.
    pose proof (proj2 (occurrences_pos (Z.to_nat (to_uchar ch)) text)
                  ltac:(by exists ch)). lia.
Qed.

Section TextTree.
Context `{HeapAlgorithms}.

(** X4.  Leaf count: the tree of a text has one leaf for every distinct byte of
    the text, and no other leaf. *)
Theorem text_tree_leaves (text : list Z) (tree : Node) :
  Z.of_nat (length text) < 2 ^ 32 →
  build_huffman_tree (fill_frequency text init_frequency) = Ok tree →
  NoDup (leaves tree) ∧ ∀ c, c ∈ leaves tree ↔ c ∈ to_uchar <$> text.
Proof.
  intros Hlen Hbuild. pose proof (built_tree_leaves _ _ Hbuild) as Hp.
  split.
  - rewrite Hp. apply NoDup_fmap_2; [apply Nat2Z.inj'|].
    unfold used_slots. apply NoDup_filter, NoDup_seq.
  - intros c. rewrite Hp. by apply used_slots_text.
Qed.

(** X5.  The root of the tree of a text carries the length of the text. *)
Theorem text_tree_root_frequency (text : list Z) (tree : Node) :
  Z.of_nat (length text) ≤ INT_MAX →
  build_huffman_tree (fill_frequency text init_frequency) = Ok tree →
  frequency_of tree = Z.of_nat (length text).
Proof.
  intros Hlen Hbuild. rewrite (built_tree_root_frequency _ _ Hbuild).
  destruct init_frequency_facts as (Hl0 & Hp0 & Hs0).
  destruct (fill_frequency_facts text init_frequency Hl0 Hp0) as (Hl & Hp & Hs).
  { rewrite Hs0. unfold INT_MAX in Hlen. lia. }
  rewrite leaf_list_sum; [lia | done | done | lia].
Qed.
End TextTree.

Lemma text_tree_leaves_witness :
  NoDup (leaves (MkNode 43 3 (MkNode 97 1 Null Null) (MkNode 98 2 Null Null))) ∧
  ∀ c, c ∈ leaves (MkNode 43 3 (MkNode 97 1 Null Null) (MkNode 98 2 Null Null))
       ↔ c ∈ to_uchar <$> [97; 98; 98].
Proof.
  apply (@text_tree_leaves sorting_heap [97; 98; 98]).
  - vm_compute. reflexivity.
  - vm_compute. reflexivity.
Defined.

Lemma text_tree_root_frequency_witness :
  frequency_of (MkNode 43 3 (MkNode 97 1 Null Null) (MkNode 98 2 Null Null))
  = Z.of_nat (length [97; 98; 98]).
Proof.
  apply (@text_tree_root_frequency sorting_heap [97; 98; 98]).
  - vm_compute. congruence.
  - vm_compute. reflexivity.
Defined.

(** ** What generate_dictionary stores *)

Lemma code_list_Null code : code_list Null code = [].
Proof. reflexivity. Qed.

(** [generate_dictionary] performs the assignments of [code_list], in
    order. *)
Lemma generate_dictionary_code_list root : ∀ code dict,
  root ≠ Null →
  generate_dictionary root code dict
  = Ok (foldl assign dict (code_list root code)).
Proof.
  induction root as [|ch f l IHl r IHr]; intros code dict Hne; [done|].
  simpl. destruct (is_null l && is_null r) eqn:Hleaf; [reflexivity|].
  rewrite foldl_app.
  assert (Hl : (if is_null l then Ok dict
                else generate_dictionary l (code ++ [chr_0]) dict)
               = Ok (foldl assign dict (code_list l (code ++ [chr_0])))).
  { destruct l; [reflexivity|]. by apply IHl. }
  rewrite Hl, bind_Ok_l.
  destruct r; [reflexivity|]. by apply IHr.
Qed.

Lemma code_list_leaves root : ∀ code, (code_list root code).*1 = leaves root.
Proof.
  induction root as [|ch f l IHl r IHr]; intros code; [done|].
  simpl. destruct (is_null l && is_null r); [done|].
  by rewrite fmap_app, IHl, IHr.
Qed.

(** Every assigned code is the accumulated code followed by a path of
    ['0'] and ['1'] from the node to the leaf of the character. *)
Lemma code_list_paths root : ∀ code ch c,
  (ch, c) ∈ code_list root code →
  ∃ path f, c = code ++ path ∧
    Forall (λ b, b = chr_0 ∨ b = chr_1) path ∧
    walk root path = MkNode ch f Null Null.
Proof.
  induction root as [|ch0 f0 l IHl r IHr]; intros code ch c Hin;
    [by apply elem_of_nil in Hin|].
  simpl in Hin. destruct (is_null l && is_null r) eqn:Hleaf.
  - apply list_elem_of_singleton in Hin. injection Hin as -> ->.
    apply andb_true_iff in Hleaf as [Hl Hr].
    destruct l; [|done]. destruct r; [|done].
    exists [], f0. by rewrite app_nil_r.
  - apply elem_of_app in Hin as [Hin|Hin].
    + destruct (IHl _ _ _ Hin) as (path & f & -> & Hbits & Hwalk).
      exists (chr_0 :: path), f. rewrite <- app_assoc.
      split; [done|]. split; [constructor; [by left | done]|]. done.
    + destruct (IHr _ _ _ Hin) as (path & f & -> & Hbits & Hwalk).
      exists (chr_1 :: path), f. rewrite <- app_assoc.
      split; [done|]. split; [constructor; [by right | done]|]. done.
Qed.

Lemma foldl_assign_length l : ∀ dict, length (foldl assign dict l) = length dict.
Proof.
  induction l as [|a l IH]; intros dict; [done|].
  simpl. rewrite IH. apply length_insert.
Qed.

Lemma foldl_assign_other l : ∀ dict (i : nat),
  i ∉ (Z.to_nat <$> l.*1) → foldl assign dict l !! i = dict !! i.
Proof.
  induction l as [|[k v] l IH]; intros dict i Hi; [done|].
  cbn [foldl]. rewrite IH by (intros ?; apply Hi; by right).
  unfold assign. cbn [fst snd].
  apply list_lookup_insert_ne. intros Heq. apply Hi. rewrite <- Heq. by left.
Qed.

Lemma foldl_assign_lookup l : ∀ dict k v,
  NoDup (Z.to_nat <$> l.*1) → (k, v) ∈ l → (Z.to_nat k < length dict)%nat →
  foldl assign dict l !! Z.to_nat k = Some v.
Proof.
  induction l as [|[k0 v0] l IH]; intros dict k v Hnd Hin Hk;
    [by apply elem_of_nil in Hin|].
  simpl in Hnd. apply NoDup_cons in Hnd as [Hk0 Hnd].
  apply elem_of_cons in Hin as [[= -> ->]|Hin]; simpl.
  - rewrite foldl_assign_other by done. by apply list_lookup_insert_eq.
  - apply IH; [done | done |]. unfold assign. by rewrite length_insert.
Qed.

Lemma dictionary_content tree dict :
  tree ≠ Null → NoDup (leaves tree) →
  Forall (λ c, 0 ≤ c < 256) (leaves tree) →
  generate_dictionary tree [] empty_dict = Ok dict →
  length dict = NUM_CHAR ∧
  (∀ ch c, (ch, c) ∈ code_list tree [] → dict !!! Z.to_nat ch = c) ∧
  (∀ i : nat, Z.of_nat i ∉ leaves tree → dict !!! i = []).
Proof.
  intros Hne Hnd Hrange Hgen.
  assert (Hr : ∀ c, c ∈ leaves tree → 0 ≤ c < 256).
  { intros c Hc. exact (proj1 (Forall_forall _ _) Hrange c Hc). }
  rewrite generate_dictionary_code_list in Hgen by done.
  injection Hgen as <-.
  assert (Hkeys : NoDup (Z.to_nat <$> (code_list tree []).*1)).
  { rewrite code_list_leaves. apply NoDup_fmap_2_strong; [|done].
    intros a b Ha Hb Hab.
    pose proof (Hr a Ha). pose proof (Hr b Hb). lia. }
  split; [|split].
  - rewrite foldl_assign_length. apply length_replicate.
  - intros ch c Hin. apply list_lookup_total_correct.
    apply foldl_assign_lookup; [done | done |].
    assert (Hch : ch ∈ leaves tree).
    { rewrite <- (code_list_leaves tree []).
      apply list_elem_of_fmap. by exists (ch, c). }
    pose proof (Hr ch Hch).
    unfold empty_dict. rewrite length_replicate. unfold NUM_CHAR. lia.
  - intros i Hi. rewrite list_lookup_total_alt, foldl_assign_other.
    + rewrite <- list_lookup_total_alt. apply empty_dict_lookup_total.
    + rewrite code_list_leaves. intros (c & -> & Hc)%list_elem_of_fmap.
      pose proof (Hr c Hc).
      apply Hi. by rewrite Z2Nat.id by lia.
Qed.

Section TextDictionary.
Context `{HeapAlgorithms}.

Lemma text_codes (text : list Z) (tree : Node) (dict : list (list Z)) :
  Z.of_nat (length text) < 2 ^ 32 →
  build_huffman_tree (fill_frequency text init_frequency) = Ok tree →
  generate_dictionary tree [] empty_dict = Ok dict →
  length dict = NUM_CHAR ∧
  (∀ ch, ch ∈ text →
     Forall (λ b, b = chr_0 ∨ b = chr_1) (dict !!! Z.to_nat (to_uchar ch)) ∧
     ∃ f, walk tree (dict !!! Z.to_nat (to_uchar ch))
          = MkNode (to_uchar ch) f Null Null) ∧
  (∀ i : nat, (i < NUM_CHAR)%nat → Z.of_nat i ∉ to_uchar <$> text →
     dict !!! i = []) ∧
  (∀ ch ch', ch ∈ text → ch' ∈ text → to_uchar ch ≠ to_uchar ch' →
     dict !!! Z.to_nat (to_uchar ch) ≠ []).
Proof.
  intros Hlen Hbuild Hgen.
  pose proof (built_tree_leaves _ _ Hbuild) as Hperm.
  assert (Hnd : NoDup (leaves tree)).
  { rewrite Hperm. apply NoDup_fmap_2; [apply Nat2Z.inj'|].
    unfold used_slots. apply NoDup_filter, NoDup_seq. }
  assert (Hleaves : ∀ c, c ∈ leaves tree ↔ c ∈ to_uchar <$> text).
  { intros c. rewrite Hperm. by apply used_slots_text. }
  assert (Hne : tree ≠ Null).
  { by eapply full_tree_not_null, build_huffman_tree_full. }
  assert (Hrange : Forall (λ c, 0 ≤ c < 256) (leaves tree)).
  { apply Forall_forall. intros c (ch & -> & _)%Hleaves%list_elem_of_fmap.
    apply to_uchar_range. }
  destruct (dictionary_content tree dict Hne Hnd Hrange Hgen)
    as (Hdlen & Hcodes & Hempty).
  assert (Hcode : ∀ ch, ch ∈ text →
    ∃ path f, dict !!! Z.to_nat (to_uchar ch) = path ∧
      Forall (λ b, b = chr_0 ∨ b = chr_1) path ∧
      walk tree path = MkNode (to_uchar ch) f Null Null).
  { intros ch Hin.
    assert (Hleaf : to_uchar ch ∈ leaves tree).
    { apply Hleaves, list_elem_of_fmap. by exists ch. }
    rewrite <- (code_list_leaves tree []) in Hleaf.
    apply list_elem_of_fmap in Hleaf as ([k c] & Hk & Hkc). simpl in Hk. subst k.
    destruct (code_list_paths _ _ _ _ Hkc) as (path & f & Hc & Hbits & Hwalk).
    simpl in Hc. subst c. exists path, f. split; [by apply Hcodes | done]. }
  split; [exact Hdlen|]. split; [|split].
  - intros ch Hin. destruct (Hcode ch Hin) as (path & f & -> & Hbits & Hwalk).
    split; [done | by exists f].
  - intros i Hi Hnot. apply Hempty. intros Hin. by apply Hnot, Hleaves.
  - intros ch ch' Hin Hin' Hdiff Hnil.
    destruct (Hcode ch Hin) as (path & f & Hp & _ & Hwalk).
    destruct (Hcode ch' Hin') as (path' & f' & _ & _ & Hwalk').
    rewrite Hnil in Hp. subst path. simpl in Hwalk. subst tree.
    destruct path' as [|b path']; simpl in Hwalk'.
    + congruence.
    + rewrite !walk_Null in Hwalk'. by case_bool_decide.
Qed.


(** X6.  The dictionary of a text: the slot of every byte of the text holds a
    code of ['0'] and ['1'] that leads from the root to the leaf of that
    byte, the slot of every other byte is empty, and a text with two
    distinct bytes has no empty code. *)
Theorem text_dictionary (text : list Z) (tree : Node) (dict : list (list Z)) :
  Z.of_nat (length text) < 2 ^ 32 →
  build_huffman_tree (fill_frequency text init_frequency) = Ok tree →
  generate_dictionary tree [] empty_dict = Ok dict →
  (∀ ch, ch ∈ text →
     Forall (λ b, b = chr_0 ∨ b = chr_1) (dict !!! Z.to_nat (to_uchar ch)) ∧
     ∃ f, walk tree (dict !!! Z.to_nat (to_uchar ch))
          = MkNode (to_uchar ch) f Null Null) ∧
  (∀ i : nat, (i < NUM_CHAR)%nat → Z.of_nat i ∉ to_uchar <$> text →
     dict !!! i = []) ∧
  (∀ ch ch', ch ∈ text → ch' ∈ text → to_uchar ch ≠ to_uchar ch' →
     dict !!! Z.to_nat (to_uchar ch) ≠ []).
Proof.
  intros Hlen Hbuild Hgen.
  destruct (text_codes text tree dict Hlen Hbuild Hgen) as (_ & Hc & He & Hn).
  split; [exact Hc|]. split; [exact He | exact Hn].
Qed.
End TextDictionary.

Lemma text_dictionary_witness :
  ∃ dict,
    generate_dictionary
      (MkNode 43 3 (MkNode 97 1 Null Null) (MkNode 98 2 Null Null))
      [] empty_dict = Ok dict ∧
    dict !!! Z.to_nat (to_uchar 98) ≠ [] ∧
    ∃ f, walk (MkNode 43 3 (MkNode 97 1 Null Null) (MkNode 98 2 Null Null))
           (dict !!! Z.to_nat (to_uchar 98))
         = MkNode (to_uchar 98) f Null Null.
Proof.
  eexists. split; [vm_compute; reflexivity|].
  destruct (@text_dictionary sorting_heap [97; 98; 98]
              (MkNode 43 3 (MkNode 97 1 Null Null) (MkNode 98 2 Null Null))
              (<[98%nat := [49]]> (<[97%nat := [48]]> empty_dict)))
    as (Hcodes & _ & Hnonempty).
  - vm_compute. reflexivity.
  - vm_compute. reflexivity.
  - vm_compute. reflexivity.
  - split.
    + apply (Hnonempty 98 97); [repeat constructor | repeat constructor |].
      vm_compute. congruence.
    + apply (Hcodes 98). repeat constructor.
Defined.

(** ** The length of the encoded text *)

Lemma sumz_cons x l : sumz (x :: l) = x + sumz l.
Proof. reflexivity. Qed.

Lemma sumz_fmap_add {A} (f g : A → Z) (l : list A) :
  sumz ((λ x, f x + g x) <$> l) = sumz (f <$> l) + sumz (g <$> l).
Proof.
  induction l as [|x l IH]; [done|].
  rewrite !fmap_cons, !sumz_cons, IH. lia.
Qed.

Lemma sumz_fmap_ext {A} (f g : A → Z) (l : list A) :
  (∀ x, x ∈ l → f x = g x) → sumz (f <$> l) = sumz (g <$> l).
Proof.
  induction l as [|x l IH]; intros Hext; [done|].
  rewrite !fmap_cons, !sumz_cons.
  rewrite IH by (intros y Hy; apply Hext; by right).
  rewrite (Hext x) by (by left). done.
Qed.

Lemma sumz_indicator (w : nat → Z) (j n : nat) :
  sumz ((λ i : nat, if decide (j = i) then w i else 0) <$> seq 0 n)
  = if decide (j < n)%nat then w j else 0.
Proof.
  induction n as [|n IH]; [done|].
  rewrite seq_S, fmap_app, sumz_app, IH.
  change (0 + n)%nat with n. rewrite fmap_cons, sumz_cons.
  change (sumz (_ <$> [])) with 0.
  repeat case_decide; subst; lia.
Qed.

Lemma sumz_fmap_zero {A} (f : A → Z) (l : list A) :
  (∀ x, x ∈ l → f x = 0) → sumz (f <$> l) = 0.
Proof.
  induction l as [|x l IH]; intros Hz; [done|].
  rewrite fmap_cons, sumz_cons, IH by (intros y Hy; apply Hz; by right).
  rewrite (Hz x) by (by left). done.
Qed.

Lemma encoded_length_sum (n : nat) (text : list Z) (dict : list (list Z)) :
  (∀ ch, ch ∈ text → (Z.to_nat (to_uchar ch) < n)%nat) →
  Z.of_nat (length (encode_text text dict))
  = sumz ((λ i : nat, Z.of_nat (occurrences i text)
                      * Z.of_nat (length (dict !!! i))) <$> seq 0 n).
Proof.
  rewrite encode_text_concat. induction text as [|ch text IH]; intros Hlt.
  - rewrite sumz_fmap_zero; [done|]. intros i _. unfold occurrences.
    rewrite filter_nil. done.
  - rewrite fmap_cons. cbn [concat]. rewrite length_app, Nat2Z.inj_add.
    rewrite IH by (intros c Hc; apply Hlt; by right).
    specialize (Hlt ch ltac:(by left)).
    set (j := Z.to_nat (to_uchar ch)) in *.
    rewrite (sumz_fmap_ext
      (λ i : nat, Z.of_nat (occurrences i (ch :: text))
                  * Z.of_nat (length (dict !!! i)))
      (λ i : nat, (if decide (j = i) then Z.of_nat (length (dict !!! i)) else 0)
                  + Z.of_nat (occurrences i text)
                    * Z.of_nat (length (dict !!! i)))).
    + rewrite sumz_fmap_add, sumz_indicator. case_decide; [done | lia].
    + intros i _. rewrite occurrences_cons. fold j.
      case_decide; lia.
Qed.

(** X7.  The encoded text has as many characters as the occurrences of every
    byte times the length of its code add up to; for a text of fewer than
    2^32 bytes the occurrences are the slots of the frequency table. *)
Theorem encoded_length_weighted_sum (text : list Z) (dict : list (list Z)) :
  Z.of_nat (length (encode_text text dict))
    = sumz ((λ i : nat, Z.of_nat (occurrences i text)
                        * Z.of_nat (length (dict !!! i))) <$> seq 0 NUM_CHAR) ∧
  (Z.of_nat (length text) < 2 ^ 32 →
   Z.of_nat (length (encode_text text dict))
     = sumz ((λ i : nat, fill_frequency text init_frequency !!! i
                         * Z.of_nat (length (dict !!! i))) <$> seq 0 NUM_CHAR)).
Proof.
  assert (Hocc := encoded_length_sum NUM_CHAR text dict
                    (λ ch _, slot_index_lt ch)).
  split; [exact Hocc|]. intros Hlen. rewrite Hocc.
  apply sumz_fmap_ext. intros i Hi%elem_of_seq.
  rewrite fill_frequency_slot by lia. unfold to_uint.
  rewrite Z.mod_small; [done|].
  pose proof (occurrences_le_length i text). lia.
Qed.

(** ** Edge cases of the reader and of decompress_file *)

Section ReaderEdges.
Context `{CharType}.

Lemma read_entries_add a : ∀ b s root,
  read_entries (a + b) s root
  = read_entries a s root ≫= λ '(root', s'), read_entries b s' root'.
Proof.
  induction a as [|a IH]; intros b s root; [done|].
  cbn [Nat.add read_entries].
  destruct (read_entry s root) as [[root1 s1]|]; [|done].
  rewrite !bind_Ok_l. apply IH.
Qed.

Lemma read_char_eof s :
  failbit s = false → drop (gpos s) (buf s) = [] →
  (read_char s).1 = None.
Proof.
  intros Hgood Hdrop. unfold read_char, stream_read. rewrite Hgood, Hdrop.
  reflexivity.
Qed.

Lemma read_char_failed s : failbit s = true → read_char s = (None, s).
Proof. intros Hfail. unfold read_char, stream_read. by rewrite Hfail. Qed.

(** An entry that starts less than two bytes before the end of the file
    leaves [code_length] unset. *)
Lemma read_entry_short s root :
  failbit s = false → (length (drop (gpos s) (buf s)) < 2)%nat →
  read_entry s root = Fault IndeterminateValue.
Proof.
  intros Hgood Hshort. unfold read_entry.
  destruct (drop (gpos s) (buf s)) as [|b [|b' rest]] eqn:Hdrop;
    [| |simpl in Hshort; lia].
  - pose proof (read_char_eof s Hgood Hdrop) as Hnone.
    destruct (read_char s) as [character s1]. simpl in Hnone. subst character.
    by destruct (read_char s1) as [code_length s2].
  - rewrite (read_char_prefix s b [] Hgood Hdrop).
    pose proof (read_char_eof (at_pos (buf s) (gpos s + 1)) eq_refl
                  (drop_after_prefix (buf s) (gpos s) [b] [] Hdrop)) as Hnone.
    destruct (read_char (at_pos (buf s) (gpos s + 1))) as [code_length s2].
    simpl in Hnone. by subst code_length.
Qed.

(** X8.  A header that announces more entries than the file holds, the file
    ending within two bytes after the last complete entry: the reader
    reports nothing and goes on with locals that no read has set. *)
Theorem truncated_header_uses_unset_values
    (es : list (Z * Z * list Z)) (rest : list Z) (count : Z) (root : Node) :
  root ≠ Null → Forall wire_ok es →
  Z.of_nat (length es) < char_value count → (length rest < 2)%nat →
  read_huffman_dictionary
    (open_file ([count] ++ concat (wire_bytes <$> es) ++ rest)) root
  = Fault IndeterminateValue.
Proof.
  intros Hroot Hok Hcount Hrest.
  set (file := [count] ++ concat (wire_bytes <$> es) ++ rest).
  unfold read_huffman_dictionary.
  rewrite (read_char_prefix (open_file file) count
             (concat (wire_bytes <$> es) ++ rest) eq_refl eq_refl).
  change (buf (open_file file)) with file.
  change (gpos (open_file file) + 1)%nat with 1%nat.
  replace (Z.to_nat (char_value count))
    with (length es + S (Z.to_nat (char_value count) - length es - 1))%nat
    by lia.
  rewrite read_entries_add.
  rewrite (read_entries_wire es (at_pos file 1) root rest eq_refl Hok eq_refl).
  destruct (insert_entries_total es root Hroot) as (tree & -> & _).
  rewrite !bind_Ok_l. cbn [read_entries].
  rewrite read_entry_short; [reflexivity | reflexivity |].
  unfold at_pos. cbn [buf gpos].
  rewrite (drop_after_prefix file 1 (concat (wire_bytes <$> es)) rest eq_refl).
  exact Hrest.
Qed.


(** X10.  If reading the header ends with the stream in the fail state (an
    announced code longer than what is left of the file), the seeks and
    the tell fail as well, the decoder reads nothing, and the output is
    the empty text. *)
Theorem failed_header_gives_empty_text (file : list Z) root infile :
  read_huffman_dictionary (open_file file) (make_node chr_plus 0)
    = Ok (root, infile) →
  failbit infile = true →
  locate_payload infile = (infile, -1) ∧ decompress_file file = Ok [].
Proof.
  intros Hread Hfail.
  assert (Hloc : locate_payload infile = (infile, -1)).
  { unfold locate_payload, seekg_end, tellg, seekg_cur. by rewrite !Hfail. }
  split; [exact Hloc|].
  unfold decompress_file. rewrite Hread, bind_Ok_l, Hloc.
  unfold decode_data. by rewrite Hfail.
Qed.
End ReaderEdges.

Lemma truncated_header_uses_unset_values_witness :
  @read_huffman_dictionary signed_char
    (open_file [2; 97; 1; 48]) (make_node chr_plus 0)
  = Fault IndeterminateValue.
Proof.
  apply (@truncated_header_uses_unset_values signed_char
           [(97, 1, [48])] [] 2 (make_node chr_plus 0)).
  - discriminate.
  - repeat constructor; vm_compute; congruence.
  - vm_compute. reflexivity.
  - simpl. lia.
Defined.


Lemma failed_header_gives_empty_text_witness :
  @decompress_file signed_char [1; 97; 3; 48] = Ok [].
Proof.
  apply (@failed_header_gives_empty_text signed_char [1; 97; 3; 48]
           (MkNode 43 0 (MkNode 43 0 Null (MkNode 43 0 Null (MkNode 97 0 Null Null))) Null)
           {| buf := [1; 97; 3; 48]; gpos := 4; failbit := true |}).
  - vm_compute. reflexivity.
  - reflexivity.
Defined.

(** ** The decoder, bit by bit *)









(** ** The bits of the payload *)

Lemma pack_bits_bits (encoded : list Z) :
  length (pack_bits encoded) = ((length encoded + 7) / 8)%nat ∧
  ∀ k : nat, (k < 8 * length (pack_bits encoded))%nat →
    Z.testbit (pack_bits encoded !!! (k / 8)%nat) (7 - Z.of_nat (k mod 8))
    = is_one (encoded !! k).
Proof.
  destruct (pack_loop_inv encoded)
    as (out & buffer & Hst & Hlen & Hbuf & Hout & Hbits & Hcur).
  set (n := length encoded) in *.
  assert (Hpay : pack_bits encoded
                 = if bool_decide (Z.of_nat (n mod 8) > 0)
                   then out ++ [buffer] else out).
  { unfold pack_bits. by rewrite Hst. }
  rewrite Hpay. case_bool_decide as Hrest.
  - split; [rewrite length_app, Hlen; cbn [length]; div_lia|].
    intros k Hk. rewrite length_app, Hlen in Hk. cbn [length] in Hk.
    destruct (decide (k < 8 * (n / 8))%nat) as [Hlt|Hge].
    + rewrite lookup_total_app_l by (rewrite Hlen; div_lia). by apply Hbits.
    + rewrite lookup_total_app_r by (rewrite Hlen; div_lia).
      replace (k / 8 - length out)%nat with 0%nat by (rewrite Hlen; div_lia).
      change ([buffer] !!! 0%nat) with buffer.
      rewrite (Hcur (k mod 8)%nat) by div_lia. f_equal. f_equal. div_lia.
  - split; [rewrite Hlen; div_lia|].
    intros k Hk. rewrite Hlen in Hk. by apply Hbits.
Qed.




(** ** The decoder restores the text *)




(** ** The tree that the reader rebuilds *)

Lemma walk_fresh_children code :
  left_of (walk (make_node chr_plus 0) code) = left_of (walk Null code) ∧
  right_of (walk (make_node chr_plus 0) code) = right_of (walk Null code).
Proof.
  destruct code as [|b code]; [done|]. cbn [walk make_node].
  rewrite !walk_Null. by case_bool_decide.
Qed.

Lemma walk_fresh_cons b code :
  walk (make_node chr_plus 0) (b :: code) = walk Null (b :: code).
Proof. cbn [walk make_node]. rewrite !walk_Null. by case_bool_decide. Qed.

(** The node at the end of an inserted code holds the symbol and keeps
    the children that the node at that place had. *)
Lemma insert_code_end code : ∀ sym current t,
  insert_code code sym current = Ok t →
  ∃ f, walk t code
       = MkNode sym f (left_of (walk current code)) (right_of (walk current code)).
Proof.
  induction code as [|b code IH]; intros sym current t Hins;
    destruct current as [|ch f l r]; try done; cbn [insert_code] in Hins.
  - injection Hins as <-. by exists f.
  - case_bool_decide as Hb.
    + apply bind_Ok in Hins as (l' & Hl & [= <-]).
      destruct (IH _ _ _ Hl) as [f' Hw]. exists f'.
      cbn [walk]. rewrite bool_decide_eq_true_2 by done. rewrite Hw.
      destruct l; [|done]. cbn [is_null].
      by destruct (walk_fresh_children code) as [-> ->].
    + apply bind_Ok in Hins as (r' & Hr & [= <-]).
      destruct (IH _ _ _ Hr) as [f' Hw]. exists f'.
      cbn [walk]. rewrite bool_decide_eq_false_2 by done. rewrite Hw.
      destruct r; [|done]. cbn [is_null].
      by destruct (walk_fresh_children code) as [-> ->].
Qed.

(** An insertion leaves alone what lies at a code that is not a prefix of
    the inserted one. *)
Lemma insert_code_other code : ∀ sym current t code',
  Forall is_bit code → Forall is_bit code' →
  insert_code code sym current = Ok t →
  ¬ code' `prefix_of` code →
  walk t code' = walk current code'.
Proof.
  induction code as [|b code IH]; intros sym current t code' Hbits Hbits' Hins Hpre;
    destruct current as [|ch f l r]; try done; cbn [insert_code] in Hins.
  - injection Hins as <-. destruct code' as [|b' code'].
    + exfalso. apply Hpre. apply prefix_nil.
    + reflexivity.
  - destruct code' as [|b' code'].
    { exfalso. apply Hpre. apply prefix_nil. }
    apply Forall_cons in Hbits as [Hb Hbits].
    apply Forall_cons in Hbits' as [Hb' Hbits'].
    assert (Hsub : b = b' → ¬ code' `prefix_of` code).
    { intros -> Hp. apply Hpre. by apply prefix_cons. }
    assert (Hcode' : b = b' → code' ≠ []).
    { intros Heq ->. apply (Hsub Heq). apply prefix_nil. }
    case_bool_decide as Hb0.
    + apply bind_Ok in Hins as (l' & Hl & [= <-]). cbn [walk].
      case_bool_decide as Hb0'; [|reflexivity].
      assert (Heq : b = b') by congruence.
      rewrite (IH _ _ _ code' Hbits Hbits' Hl (Hsub Heq)).
      destruct l; [|done]. cbn [is_null].
      destruct code' as [|b2 code']; [by destruct (Hcode' Heq)|].
      apply walk_fresh_cons.
    + apply bind_Ok in Hins as (r' & Hr & [= <-]). cbn [walk].
      case_bool_decide as Hb0'; [reflexivity|].
      assert (Heq : b = b').
      { destruct Hb as [?|?], Hb' as [?|?]; congruence. }
      rewrite (IH _ _ _ code' Hbits Hbits' Hr (Hsub Heq)).
      destruct r; [|done]. cbn [is_null].
      destruct code' as [|b2 code']; [by destruct (Hcode' Heq)|].
      apply walk_fresh_cons.
Qed.

(** An insertion adds nodes on the inserted code only. *)
Lemma insert_code_nodes code : ∀ sym current t q,
  Forall is_bit code → Forall is_bit q →
  insert_code code sym current = Ok t →
  walk t q ≠ Null → walk current q ≠ Null ∨ q `prefix_of` code.
Proof.
  intros sym current t q Hbits Hq Hins Hwalk.
  destruct (decide (q `prefix_of` code)) as [?|Hpre]; [by right|].
  left. by rewrite <- (insert_code_other code sym current t q Hbits Hq Hins Hpre).
Qed.

Lemma walk_snoc_left p code :
  walk p (code ++ [chr_0]) = left_of (walk p code).
Proof.
  rewrite walk_app. destruct (walk p code) as [|ch f l r]; [done|].
  reflexivity.
Qed.

Lemma walk_snoc_right p code :
  walk p (code ++ [chr_1]) = right_of (walk p code).
Proof.
  rewrite walk_app. destruct (walk p code) as [|ch f l r]; [done|].
  reflexivity.
Qed.

Lemma rebuilt_bare_root : rebuilt (make_node chr_plus 0) [].
Proof.
  split.
  - intros q _ Hwalk. destruct q as [|b q]; [by left|].
    rewrite walk_fresh_cons, walk_Null in Hwalk. done.
  - intros e He. by apply elem_of_nil in He.
Qed.

(** One more entry keeps the tree rebuilt, when no code among the entries
    is a prefix of another. *)
Lemma rebuilt_insert tree tree' es sym len code :
  rebuilt tree es →
  Forall (λ e, Forall is_bit e.2) (es ++ [(sym, len, code)]) →
  entries_prefix_free (es ++ [(sym, len, code)]) →
  insert_code code sym tree = Ok tree' →
  rebuilt tree' (es ++ [(sym, len, code)]).
Proof.
  intros [Hnodes Hleaves] Hbits Hfree Hins.
  assert (Hin_new : (sym, len, code) ∈ es ++ [(sym, len, code)]).
  { apply elem_of_app. right. by apply list_elem_of_singleton. }
  assert (Hall : ∀ e, e ∈ es ++ [(sym, len, code)] → Forall is_bit e.2).
  { intros e He. exact (proj1 (Forall_forall _ _) Hbits e He). }
  assert (Hcode : Forall is_bit code) by exact (Hall _ Hin_new).
  assert (Hold : ∀ e, e ∈ es → Forall is_bit e.2).
  { intros e He. apply Hall, elem_of_app. by left. }
  (* the place of the new code has no child in the old tree *)
  assert (Hchild : ∀ b, is_bit b → walk tree (code ++ [b]) = Null).
  { intros b Hb.
    destruct (walk tree (code ++ [b])) as [|c0 f0 l0 r0] eqn:Hw; [done|].
    exfalso.
    assert (Hne : walk tree (code ++ [b]) ≠ Null) by (by rewrite Hw).
    destruct (Hnodes (code ++ [b])) as [Hnil|(e & He & Hpre)].
    - apply Forall_app. split; [done | by apply Forall_singleton].
    - done.
    - by destruct code.
    - apply (Hfree (sym, len, code) e Hin_new).
      + apply elem_of_app. by left.
      + intros <-. cbn [snd] in Hpre. by apply prefix_snoc_not in Hpre.
      + cbn [snd]. by eapply prefix_app_l. }
  destruct (insert_code_end _ _ _ _ Hins) as [f Hend].
  rewrite <- walk_snoc_left, <- walk_snoc_right in Hend.
  rewrite (Hchild chr_0 ltac:(by left)), (Hchild chr_1 ltac:(by right)) in Hend.
  split.
  - intros q Hq Hwalk.
    destruct (insert_code_nodes _ _ _ _ q Hcode Hq Hins Hwalk) as [Hw|Hpre].
    + destruct (Hnodes q Hq Hw) as [?|(e & He & Hpre)]; [by left|].
      right. exists e. split; [|done]. apply elem_of_app. by left.
    + right. by exists (sym, len, code).
  - intros e [He|He%list_elem_of_singleton]%elem_of_app.
    + destruct (decide (e = (sym, len, code))) as [->|Hne].
      * by exists f.
      * destruct (Hleaves e He) as [f' Hleaf]. exists f'.
        rewrite (insert_code_other code sym tree tree' e.2 Hcode (Hold e He) Hins);
          [done|].
        apply (Hfree e (sym, len, code)); [|done|done].
        apply elem_of_app. by left.
    + subst e. by exists f.
Qed.

Lemma insert_entries_rebuilt es : ∀ done tree tree',
  rebuilt tree done →
  Forall (λ e, Forall is_bit e.2) (done ++ es) →
  entries_prefix_free (done ++ es) →
  insert_entries es tree = Ok tree' →
  rebuilt tree' (done ++ es).
Proof.
  induction es as [|[[sym len] code] es IH]; intros done tree tree' Hre Hbits Hfree Hins.
  - cbn in Hins. injection Hins as <-. by rewrite app_nil_r.
  - cbn [insert_entries] in Hins.
    apply bind_Ok in Hins as (tree1 & Hins1 & Hrest).
    rewrite (cons_middle _ done es), app_assoc in Hbits, Hfree |- *.
    apply (IH _ tree1 tree'); [|done|done|done].
    apply (rebuilt_insert tree tree1 done sym len code); [done| | |done].
    + apply Forall_forall. intros e He.
      apply (proj1 (Forall_forall _ _) Hbits e), elem_of_app. by left.
    + intros e e' He He' Hne. apply Hfree; [| |done].
      * apply elem_of_app. by left.
      * apply elem_of_app. by left.
Qed.

(** * Reading a header back, and the whole round trip *)

Section ReaderRebuilds.
Context `{CharType}.

(** X12.  [read_huffman_dictionary] rebuilds the codes of a header: when
    the entries that lie in the file have codes of ['0'] and ['1'] of
    which none is a prefix of another, the tree that the reader returns
    has, at the end of the code of every entry, a leaf with the symbol of
    that entry, and the stream stands at the first byte after the
    entries. *)
Theorem reader_rebuilds_codes (es : list (Z * Z * list Z)) (rest : list Z) :
  Forall wire_ok es →
  Z.of_nat (length es) ≤ char_max →
  Forall (λ e, Forall is_bit e.2) es →
  entries_prefix_free es →
  let file := [Z.of_nat (length es)] ++ concat (wire_bytes <$> es) ++ rest in
  ∃ tree,
    read_huffman_dictionary (open_file file) (make_node chr_plus 0)
    = Ok (tree, at_pos file (1 + length (concat (wire_bytes <$> es)))) ∧
    ∀ e, e ∈ es → ∃ f, walk tree e.2 = MkNode e.1.1 f Null Null.
Proof.
  intros Hwire Hcount Hbits Hfree file.
  destruct (insert_entries_total es (make_node chr_plus 0) ltac:(done))
    as (tree & Htree & _).
  exists tree. split.
  - unfold read_huffman_dictionary.
    rewrite (read_char_prefix (open_file file) (Z.of_nat (length es))
               (concat (wire_bytes <$> es) ++ rest) eq_refl eq_refl).
    rewrite char_value_small by lia. rewrite Nat2Z.id.
    change (buf (open_file file)) with file.
    change (gpos (open_file file) + 1)%nat with 1%nat.
    rewrite (read_entries_wire es (at_pos file 1) (make_node chr_plus 0) rest
               eq_refl Hwire eq_refl).
    by rewrite Htree.
  - exact (proj2 (insert_entries_rebuilt es [] _ tree rebuilt_bare_root
                    Hbits Hfree Htree)).
Qed.
End ReaderRebuilds.

Lemma reader_rebuilds_codes_witness :
  let es := [(97, 1, [48]); (98, 2, [49; 48]); (99, 2, [49; 49])] in
  let file := [Z.of_nat (length es)] ++ concat (wire_bytes <$> es) ++ [96] in
  ∃ tree,
    @read_huffman_dictionary signed_char (open_file file) (make_node chr_plus 0)
    = Ok (tree, at_pos file (1 + length (concat (wire_bytes <$> es)))) ∧
    ∀ e, e ∈ es → ∃ f, walk tree e.2 = MkNode e.1.1 f Null Null.
Proof.
  apply (@reader_rebuilds_codes signed_char
           [(97, 1, [48]); (98, 2, [49; 48]); (99, 2, [49; 49])] [96]).
  - repeat constructor; vm_compute; congruence.
  - vm_compute. congruence.
  - repeat constructor; (by left) || (by right).
  - intros e e' He He' Hne Hpre.
    repeat (apply elem_of_cons in He as [->|He]);
      try (by apply elem_of_nil in He).
    all: repeat (apply elem_of_cons in He' as [->|He']);
      try (by apply elem_of_nil in He').
    all: try done.
    all: destruct Hpre as [k Hk]; cbn in Hk; discriminate.
Defined.

(** ** The entries of a dictionary *)






Section RoundTrip.
Context `{HeapAlgorithms} `{CharType}.

End RoundTrip.


(** ** The size of a compressed file *)

Lemma code_entries_wire_length dict : ∀ i,
  length (concat (wire_bytes <$> code_entries i dict))
  = (2 * count_codes dict + length (concat dict))%nat.
Proof.
  unfold count_codes.
  induction dict as [|c dict IH]; intros i; [done|].
  cbn [code_entries concat]. rewrite fmap_app, concat_app, !length_app, IH.
  rewrite filter_cons. case_bool_decide as Hc; case_decide; try done.
  - cbn [fmap list_fmap concat wire_bytes length app].
    rewrite app_nil_r. cbn [length]. lia.
  - assert (c = []) as -> by (by destruct c). cbn. lia.
Qed.

(** X14.  The size of the file that [write_compressed_file] writes, when
    every code fits the length byte: one byte for the number of codes,
    two bytes and the code characters for every non-empty code, and one
    byte for every started group of eight characters of the encoded
    text. *)
Theorem compressed_file_size `{CharType} (dict : list (list Z))
    (encoded_text file : list Z) :
  (length dict ≤ NUM_CHAR)%nat →
  Forall (λ code : list Z, Z.of_nat (length code) ≤ char_max) dict →
  write_compressed_file dict encoded_text = Ok file →
  length file
  = (1 + (2 * count_codes dict + length (concat dict))
     + (length encoded_text + 7) / 8)%nat.
Proof.
  intros Hdict Hshort (entries & Hw & [= <-])%bind_Ok.
  destruct (write_entries_wire _ _ _ Hw) as [-> _].
  rewrite dict_entries_plain by (done || lia).
  destruct (pack_bits_bits encoded_text) as [Hpay _].
  cbn [app length]. rewrite length_app, code_entries_wire_length, Hpay. lia.
Qed.

Lemma compressed_file_size_witness :
  length [2; 97; 1; 48; 98; 1; 49; 96]
  = (1 + (2 * count_codes (<[98 := [49%Z]]> (<[97 := [48%Z]]> empty_dict))
          + length (concat (<[98 := [49%Z]]> (<[97 := [48%Z]]> empty_dict))))
     + (length [48%Z; 49%Z; 49%Z] + 7) / 8)%nat.
Proof.
  apply (@compressed_file_size signed_char
           (<[98%nat := [49]]> (<[97%nat := [48]]> empty_dict))
           [48; 49; 49] [2; 97; 1; 48; 98; 1; 49; 96]).
  - vm_compute. lia.
  - apply Forall_forall. intros code Hin. vm_compute in Hin.
    repeat (apply elem_of_cons in Hin as [->|Hin]; [vm_compute; congruence|]).
    by apply elem_of_nil in Hin.
  - vm_compute. reflexivity.
Defined.
